(** * pyring: traceable ring signatures (one_time.py, serialize.py)

    A shallow embedding of [pyring/one_time.py] and [pyring/serialize.py].
    The modules [pyring/ge.py] (curve points, [G], [hash_to_scalar]) and
    [pyring/sc25519.py] (scalars) are imported by the two files but are not
    part of the sources at hand; they enter as the interfaces [Curve] and
    [Wire] below.  The libraries [base64], [textwrap] and [pyasn1] are
    written out for the values [serialize.py] hands them. *)

From Stdlib Require Import Ascii String.
From Stdlib Require Strings.Byte.
From Stdlib Require Import ZArith NArith Nnat List Lia Bool Ring Arith.
Import ListNotations.

(** ** Python values common to both files *)

Definition bytes := list Byte.byte.

(** The exceptions the embedded code can raise. *)
Inductive exn : Type :=
| TypeError          (* functools.reduce on an empty list *)
| UnboundLocalError  (* q_s read before assignment *)
| ValueError         (* list.index on an absent element, import_pem checks *)
| IndexError         (* list subscript out of range *)
| KeyError           (* asn1["field-k"] on a missing component *)
| BinasciiError      (* base64.b64decode(validate=True) *)
| PyAsn1Error.       (* the DER decoder *)

Inductive result (A : Type) : Type :=
| Ok (a : A)
| Raise (e : exn).
Arguments Ok {A} a.
Arguments Raise {A} e.

Definition bind {A B} (m : result A) (f : A -> result B) : result B :=
  match m with
  | Ok a => f a
  | Raise e => Raise e
  end.

Notation "x <- m ;; k" := (bind m (fun x => k))
  (at level 61, m at next level, right associativity).
Notation "' p <- m ;; k" := (bind m (fun p => k))
  (at level 61, p pattern, m at next level, right associativity).

(** [list.insert(i, v)] for [0 <= i]: the value goes before position [i],
    or at the end when [i] is past the end. *)
Definition py_insert {A} (i : nat) (v : A) (l : list A) : list A :=
  firstn i l ++ v :: skipn i l.

(** [l[i]] for [0 <= i]. *)
Definition py_get {A} (l : list A) (i : nat) : result A :=
  match nth_error l i with
  | Some a => Ok a
  | None => Raise IndexError
  end.

(** [functools.reduce(f, l)] without initial value. *)
Definition reduce {A} (f : A -> A -> A) (l : list A) : result A :=
  match l with
  | [] => Raise TypeError
  | a :: t => Ok (fold_left f t a)
  end.

(** [enumerate(l)] *)
Definition enumerate {A} (l : list A) : list (nat * A) :=
  combine (seq 0 (length l)) l.

(** [l.index(v)]: the first position holding a value equal to [v]. *)
Fixpoint py_index {A} (eqb : A -> A -> bool) (v : A) (l : list A) : result nat :=
  match l with
  | [] => Raise ValueError
  | a :: t => if eqb a v then Ok 0 else i <- py_index eqb v t ;; Ok (S i)
  end.

(** ** The interface of [ge.py] and [sc25519.py] *)

(** Modelled from the spec: [pyring/ge.py] and [pyring/sc25519.py] are
    missing.  Scalars are the ring of integers modulo the group order, with
    [+], [-], [*] and equality; points form a commutative group under [+]
    and [-]; [s * P] is scalar multiplication, linear and associative on the
    base point [G] and on every output of [hash_to_point] (both lie in the
    prime-order subgroup; no such law is asked of an arbitrary point, which
    may carry a torsion component); [as_bytes] is the 32-byte encoding and
    [hash_to_scalar] maps a byte string to a scalar. *)
Class Curve : Type := {
  Scalar : Type;
  Point : Type;
  sc_zero : Scalar;
  sc_one : Scalar;
  sc_add : Scalar -> Scalar -> Scalar;
  sc_sub : Scalar -> Scalar -> Scalar;
  sc_mul : Scalar -> Scalar -> Scalar;
  sc_neg : Scalar -> Scalar;
  sc_eqb : Scalar -> Scalar -> bool;
  G : Point;
  pt_add : Point -> Point -> Point;
  pt_sub : Point -> Point -> Point;
  pt_mul : Scalar -> Point -> Point;
  pt_eqb : Point -> Point -> bool;
  as_bytes : Point -> bytes;
  hash_to_point : Point -> Point;
  hash_to_scalar : bytes -> Scalar;
  sc_ring : ring_theory sc_zero sc_one sc_add sc_mul sc_sub sc_neg eq;
  sc_eqb_eq : forall a b, sc_eqb a b = true <-> a = b;
  pt_eqb_eq : forall P Q, pt_eqb P Q = true <-> P = Q;
  pt_add_comm : forall P Q, pt_add P Q = pt_add Q P;
  pt_add_assoc : forall P Q R, pt_add P (pt_add Q R) = pt_add (pt_add P Q) R;
  pt_add_sub : forall P Q, pt_sub (pt_add P Q) Q = P;
  pt_mul_add_G : forall a b,
      pt_mul (sc_add a b) G = pt_add (pt_mul a G) (pt_mul b G);
  pt_mul_mul_G : forall a b,
      pt_mul a (pt_mul b G) = pt_mul (sc_mul a b) G;
  pt_mul_add_H : forall a b P,
      pt_mul (sc_add a b) (hash_to_point P)
      = pt_add (pt_mul a (hash_to_point P)) (pt_mul b (hash_to_point P));
  pt_mul_mul_H : forall a b P,
      pt_mul a (pt_mul b (hash_to_point P))
      = pt_mul (sc_mul a b) (hash_to_point P)
}.

Declare Scope curve_scope.
Delimit Scope curve_scope with curve.
Infix "+" := sc_add : curve_scope.
Infix "-" := sc_sub : curve_scope.
Infix "*" := sc_mul : curve_scope.
Infix "*:" := pt_mul (at level 40, left associativity) : curve_scope.
Infix "+:" := pt_add (at level 50, left associativity) : curve_scope.
Infix "-:" := pt_sub (at level 50, left associativity) : curve_scope.

(** ** one_time.py *)

Section OneTime.

Context {E : Curve}.

(** [Scalar.random()]: the [k]-th draw of the random source. Every function
    that draws takes the number of draws made so far and returns the number
    made when it is done. *)
Variable random : nat -> Scalar.

Local Open Scope curve_scope.

(** [PrivateKey(x).public_key().point] *)
Definition public_key (x : Scalar) : Point := x *: G.

(** [PrivateKey(x).key_image()] *)
Definition key_image (x : Scalar) : Point :=
  x *: hash_to_point (public_key x).

Record RingSignature : Type := {
  public_keys : list Point;
  rs_key_image : Point;
  c : list Scalar;
  r : list Scalar
}.

Record WithinRingSignature : Type := {
  w_public_keys : list Point;
  public_points : list Point;
  enc_points : list Point;
  w_c : list Scalar;
  w_r : list Scalar
}.

(** The locals of [sign] that its loop updates, with the draw counter. *)
Record sign_state : Type := {
  buffer_ : bytes;
  cs : list Scalar;
  rs : list Scalar;
  q_s : option Scalar;
  draws : nat
}.

(** One round of the loop [for i, P_i in enumerate(public_keys)] of [sign]. *)
Definition sign_step (I : Point) (key_index : nat)
    (st : sign_state) (iP : nat * Point) : sign_state :=
  let (i, P_i) := iP in
  if Nat.eqb i key_index then
    let q := random (draws st) in
    {| buffer_ := (buffer_ st ++ as_bytes (q *: G))
                    ++ as_bytes (q *: hash_to_point P_i);
       cs := cs st;
       rs := rs st;
       q_s := Some q;
       draws := S (draws st) |}
  else
    let q_i := random (draws st) in
    let w_i := random (S (draws st)) in
    {| buffer_ := (buffer_ st ++ as_bytes (q_i *: G +: w_i *: P_i))
                    ++ as_bytes (q_i *: hash_to_point P_i +: w_i *: I);
       cs := cs st ++ [w_i];
       rs := rs st ++ [q_i];
       q_s := q_s st;
       draws := S (S (draws st)) |}.

(** [sign(message, public_keys, private_key, key_index)].  The index is a
    natural number; a negative [key_index] never equals a loop index either
    and ends in the same [UnboundLocalError] as one past the end.  The
    result is the tuple [(public_keys, I, c, r)]. *)
Definition sign (message : bytes) (pks : list Point) (private_key : Scalar)
    (key_index : nat) (k : nat)
  : result (list Point * Point * list Scalar * list Scalar) * nat :=
  let x := private_key in
  let s := key_index in
  let I := key_image private_key in
  let st := fold_left (sign_step I key_index) (enumerate pks)
              {| buffer_ := message; cs := []; rs := []; q_s := None;
                 draws := k |} in
  (sum <- reduce sc_add (cs st) ;;
   let c := py_insert s (hash_to_scalar (buffer_ st) - sum) (cs st) in
   q <- match q_s st with
        | Some q => Ok q
        | None => Raise UnboundLocalError
        end ;;
   c_s <- py_get c s ;;
   let r := py_insert s (q - c_s * x) (rs st) in
   Ok (pks, I, c, r),
   draws st).

(** [ring_sign] *)
Definition ring_sign (message : bytes) (pks : list Point)
    (private_key : Scalar) (key_index : nat) (k : nat)
  : result RingSignature * nat :=
  let (res, k') := sign message pks private_key key_index k in
  ('(pks', I0, c0, r0) <- res ;;
   Ok {| public_keys := pks'; rs_key_image := I0; c := c0; r := r0 |},
   k').

(** One round of the loop [for public_key in public_keys] of
    [within_ring_sign]: the lists built so far and the draw counter. *)
Definition within_step (I : Point)
    (st : list Point * list Point * nat) (pk : Point)
  : list Point * list Point * nat :=
  let '(pubs, encs, k) := st in
  let r_i := random k in
  let shared_secret := r_i *: pk in
  let public := r_i *: G in
  (pubs ++ [public], encs ++ [shared_secret +: I], S k).

(** [within_ring_sign] *)
Definition within_ring_sign (message : bytes) (pks : list Point)
    (private_key : Scalar) (key_index : nat) (k : nat)
  : result WithinRingSignature * nat :=
  let (res, k') := sign message pks private_key key_index k in
  match res with
  | Raise e => (Raise e, k')
  | Ok (pks', I0, c0, r0) =>
      let '(pubs, encs, k'') := fold_left (within_step I0) pks' ([], [], k') in
      (Ok {| w_public_keys := pks'; public_points := pubs;
             enc_points := encs; w_c := c0; w_r := r0 |}, k'')
  end.

(** One round of the loop over [zip(public_keys, r, c)] of [ring_verify]. *)
Definition verify_step (I : Point) (buf : bytes)
    (t : Point * Scalar * Scalar) : bytes :=
  let '(P_i, r_i, c_i) := t in
  (buf ++ as_bytes (r_i *: G +: c_i *: P_i))
    ++ as_bytes (r_i *: hash_to_point P_i +: c_i *: I).

(** [ring_verify(message, signature)].  The comparison [== 0] of a scalar
    with the integer 0 is equality with the zero scalar. *)
Definition ring_verify (message : bytes) (signature : RingSignature)
  : result bool :=
  let pks := public_keys signature in
  let I := rs_key_image signature in
  let buf := fold_left (verify_step I)
               (combine (combine pks (r signature)) (c signature)) message in
  let h := hash_to_scalar buf in
  sum <- reduce sc_add (c signature) ;;
  Ok (sc_eqb (h - sum) sc_zero).

(** [within_ring_verify(message, signature, private_key)] *)
Definition within_ring_verify (message : bytes)
    (signature : WithinRingSignature) (private_key : Scalar) : result bool :=
  index <- py_index pt_eqb (public_key private_key)
             (w_public_keys signature) ;;
  public_point <- py_get (public_points signature) index ;;
  enc_point <- py_get (enc_points signature) index ;;
  let shared_secret := private_key *: public_point in
  let key_image := enc_point -: shared_secret in
  ring_verify message
    {| public_keys := w_public_keys signature; rs_key_image := key_image;
       c := w_c signature; r := w_r signature |}.

End OneTime.

Arguments public_keys {E} _.
Arguments rs_key_image {E} _.

(** ** The verifier's equation as the specification writes it *)

Section Transcript.

Context {E : Curve}.
Local Open Scope curve_scope.

(** The sum of a list of scalars. *)
Definition sc_sum (l : list Scalar) : Scalar := fold_right sc_add sc_zero l.

(** The two encodings the verifier appends for one triple. *)
Definition pair_bytes (I : Point) (t : Point * Scalar * Scalar) : bytes :=
  let '(P_i, r_i, c_i) := t in
  as_bytes (r_i *: G +: c_i *: P_i)
    ++ as_bytes (r_i *: hash_to_point P_i +: c_i *: I).

(** The transcript as the specification writes it: the message followed,
    for [i = 0 .. n-1] in ring order, by the encodings of
    [r[i] G + c[i] P[i]] and [r[i] HashToPoint(P[i]) + c[i] I]. *)
Definition spec_transcript (message : bytes) (sig : RingSignature) : bytes :=
  message
    ++ flat_map
         (fun i => pair_bytes (rs_key_image sig)
                     (nth i (public_keys sig) G, nth i (r sig) sc_zero,
                      nth i (c sig) sc_zero))
         (seq 0 (length (public_keys sig))).

End Transcript.

Local Open Scope N_scope.

(** ** serialize.py: the libraries it calls *)

(** Python [str] values. *)
Definition str := list ascii.

Definition byte_of_N (n : N) : Byte.byte :=
  match Byte.of_N n with
  | Some b => b
  | None => Byte.x00
  end.

(** *** base64 *)

Definition b64_alphabet : str :=
  list_ascii_of_string
    "ABCDEFGHIJKLMNOPQRSTUVWXYZabcdefghijklmnopqrstuvwxyz0123456789+/".

Definition b64_char (n : N) : ascii := nth (N.to_nat n) b64_alphabet "="%char.

(** The value of a base64 digit, [None] for any other character. *)
Definition b64_value (ch : ascii) : option N :=
  let n := N_of_ascii ch in
  if (65 <=? n) && (n <=? 90) then Some (n - 65)
  else if (97 <=? n) && (n <=? 122) then Some (n - 71)
  else if (48 <=? n) && (n <=? 57) then Some (n + 4)
  else if n =? 43 then Some 62
  else if n =? 47 then Some 63
  else None.

(** A character of the base64 alphabet or the padding character. *)
Definition b64_text_char (ch : ascii) : Prop :=
  b64_value ch <> None \/ ch = "="%char.

(** [base64.b64encode(data).decode("ascii")] *)
Fixpoint b64encode (data : bytes) : str :=
  match data with
  | [] => []
  | [a] =>
      let n := Byte.to_N a * 16 in
      [b64_char (n / 64); b64_char (n mod 64); "="%char; "="%char]
  | [a; b] =>
      let n := (Byte.to_N a * 256 + Byte.to_N b) * 4 in
      [b64_char (n / 4096); b64_char ((n / 64) mod 64); b64_char (n mod 64);
       "="%char]
  | a :: b :: c :: rest =>
      let n := Byte.to_N a * 65536 + Byte.to_N b * 256 + Byte.to_N c in
      b64_char (n / 262144) :: b64_char ((n / 4096) mod 64)
        :: b64_char ((n / 64) mod 64) :: b64_char (n mod 64)
        :: b64encode rest
  end.

(** [base64.b64decode(s, validate=True)]: groups of four digits, padding
    only in the last group; anything else raises [binascii.Error]. *)
Fixpoint b64decode (s : str) : result bytes :=
  match s with
  | [] => Ok []
  | c1 :: c2 :: c3 :: c4 :: rest =>
      match b64_value c1, b64_value c2, b64_value c3, b64_value c4 with
      | Some v1, Some v2, Some v3, Some v4 =>
          let n := v1 * 262144 + v2 * 4096 + v3 * 64 + v4 in
          tail <- b64decode rest ;;
          Ok (byte_of_N (n / 65536) :: byte_of_N ((n / 256) mod 256)
                :: byte_of_N (n mod 256) :: tail)
      | Some v1, Some v2, Some v3, None =>
          if Ascii.eqb c4 "="%char && match rest with [] => true | _ => false end
          then let n := v1 * 4096 + v2 * 64 + v3 in
               Ok [byte_of_N (n / 1024); byte_of_N ((n / 4) mod 256)]
          else Raise BinasciiError
      | Some v1, Some v2, None, None =>
          if Ascii.eqb c3 "="%char && Ascii.eqb c4 "="%char
             && match rest with [] => true | _ => false end
          then Ok [byte_of_N ((v1 * 64 + v2) / 16)]
          else Raise BinasciiError
      | _, _, _, _ => Raise BinasciiError
      end
  | _ => Raise BinasciiError
  end.

(** *** textwrap and str methods *)

(** [textwrap.wrap(text, width)] on a text without whitespace or hyphens:
    pieces of [width] characters, the last one shorter. *)
Fixpoint wrap_fuel (fuel width : nat) (text : str) : list str :=
  match fuel, text with
  | _, [] => []
  | O, _ => [text]
  | S fuel', _ => firstn width text :: wrap_fuel fuel' width (skipn width text)
  end.

Definition wrap (text : str) (width : nat) : list str :=
  wrap_fuel (length text) width text.

(** [sep.join(pieces)] *)
Fixpoint join (sep : str) (pieces : list str) : str :=
  match pieces with
  | [] => []
  | [p] => p
  | p :: rest => p ++ sep ++ join sep rest
  end.

(** [string.whitespace] *)
Definition in_string_whitespace (ch : ascii) : bool :=
  let n := N_of_ascii ch in
  (n =? 32) || ((9 <=? n) && (n <=? 13)).

(** [ch.isspace()], the characters [str.strip()] removes. *)
Definition isspace (ch : ascii) : bool :=
  let n := N_of_ascii ch in
  (n =? 32) || ((9 <=? n) && (n <=? 13)) || ((28 <=? n) && (n <=? 31))
  || (n =? 133) || (n =? 160).

Fixpoint lstrip (s : str) : str :=
  match s with
  | [] => []
  | ch :: t => if isspace ch then lstrip t else s
  end.

(** [s.strip()] *)
Definition strip (s : str) : str := rev (lstrip (rev (lstrip s))).

Definition str_eqb (a b : str) : bool :=
  if list_eq_dec ascii_dec a b then true else false.

(** [s.startswith(prefix)] *)
Definition startswith (s prefix : str) : bool :=
  str_eqb (firstn (length prefix) s) prefix && (length prefix <=? length s)%nat.

(** [s.endswith(suffix)] *)
Definition endswith (s suffix : str) : bool :=
  str_eqb (skipn (length s - length suffix) s) suffix
  && (length suffix <=? length s)%nat.

(** [s[a:-b]] for [b > 0] *)
Definition slice_between {A} (s : list A) (a b : nat) : list A :=
  skipn a (firstn (length s - b) s).

(** *** ASN.1 values and DER *)

#[warnings="-register-all"]
Inductive asn1 : Type :=
| ObjectIdentifier (arcs : list N)
| OctetString (octets : bytes)
| Sequence (components : list asn1).

Definition tag_of (v : asn1) : N :=
  match v with
  | ObjectIdentifier _ => 6
  | OctetString _ => 4
  | Sequence _ => 48
  end.

(** The big-endian digits of [n] in base [2^bits], most significant first;
    [fuel] bounds their number. *)
Fixpoint digits_fuel (fuel : nat) (base n : N) (acc : list N) : list N :=
  match fuel with
  | O => n mod base :: acc
  | S fuel' =>
      if n <? base then n :: acc
      else digits_fuel fuel' base (n / base) (n mod base :: acc)
  end.

Definition digits (base n : N) : list N :=
  digits_fuel (N.to_nat (N.size n)) base n [].

(** A subidentifier: base 128, every octet but the last with its top bit
    set. *)
Definition base128 (n : N) : bytes :=
  let ds := digits 128 n in
  map (fun d => byte_of_N (d + 128)) (removelast ds)
    ++ [byte_of_N (last ds 0)].

(** The contents octets of an object identifier; the first two arcs share
    a subidentifier.  (The encoder rejects identifiers of fewer than two
    arcs; the exporters encode [_OBJECT_ID] only.) *)
Definition oid_content (arcs : list N) : bytes :=
  match arcs with
  | a :: b :: rest => base128 (40 * a + b) ++ flat_map base128 rest
  | _ => []
  end.

(** The length octets, definite form.  (The encoder raises when more than
    126 octets of length would be needed; see [der_small].) *)
Definition der_length (n : N) : bytes :=
  if n <? 128 then [byte_of_N n]
  else let ds := digits 256 n in
       byte_of_N (128 + N.of_nat (length ds)) :: map byte_of_N ds.

Definition tlv (tag : N) (content : bytes) : bytes :=
  byte_of_N tag :: der_length (N.of_nat (length content)) ++ content.

(** [pyasn1.codec.der.encoder.encode] *)
Fixpoint der_encode (v : asn1) : bytes :=
  match v with
  | ObjectIdentifier arcs => tlv 6 (oid_content arcs)
  | OctetString octets => tlv 4 octets
  | Sequence components => tlv 48 (concat (map der_encode components))
  end.

(** The big-endian number held by [bs]. *)
Definition be_number (base : N) (ds : list N) : N :=
  fold_left (fun acc d => acc * base + d) ds 0.

(** The subidentifiers in the contents octets of an object identifier;
    [None] when the last octet still has its top bit set. *)
Fixpoint subidentifiers (content : bytes) (acc : N) (pending : bool)
  : option (list N) :=
  match content with
  | [] => if pending then None else Some []
  | b :: rest =>
      let n := Byte.to_N b in
      if n <? 128
      then option_map (cons (acc * 128 + n)) (subidentifiers rest 0 false)
      else subidentifiers rest (acc * 128 + (n - 128)) true
  end.

Definition oid_arcs (content : bytes) : option (list N) :=
  match subidentifiers content 0 false with
  | Some (first :: rest) =>
      Some (if first <? 40 then 0 :: first :: rest
            else if first <? 80 then 1 :: (first - 40) :: rest
            else 2 :: (first - 80) :: rest)
  | _ => None
  end.

(** Tag and length: the tag, the contents octets and what follows them. *)
Definition der_header (s : bytes) : result (N * bytes * bytes) :=
  match s with
  | tag :: len :: rest =>
      let l := Byte.to_N len in
      if l <? 128 then
        if (N.to_nat l <=? length rest)%nat
        then Ok (Byte.to_N tag, firstn (N.to_nat l) rest,
                 skipn (N.to_nat l) rest)
        else Raise PyAsn1Error
      else
        let k := N.to_nat (l - 128) in
        if (k =? 0)%nat || (length rest <? k)%nat then Raise PyAsn1Error
        else
          let n := N.to_nat (be_number 256 (map Byte.to_N (firstn k rest))) in
          let rest' := skipn k rest in
          if (n <=? length rest')%nat
          then Ok (Byte.to_N tag, firstn n rest', skipn n rest')
          else Raise PyAsn1Error
  | _ => Raise PyAsn1Error
  end.

(** The values encoded one after the other in [s]. *)
Fixpoint decode_many (fuel : nat)
    (decode_one : bytes -> result (asn1 * bytes)) (s : bytes)
  : result (list asn1) :=
  match s, fuel with
  | [], _ => Ok []
  | _, O => Raise PyAsn1Error
  | _, S fuel' =>
      '(v, rest) <- decode_one s ;;
      vs <- decode_many fuel' decode_one rest ;;
      Ok (v :: vs)
  end.

Fixpoint der_decode_fuel (fuel : nat) (s : bytes) : result (asn1 * bytes) :=
  match fuel with
  | O => Raise PyAsn1Error
  | S fuel' =>
      '(tag, content, rest) <- der_header s ;;
      if tag =? 4 then Ok (OctetString content, rest)
      else if tag =? 6 then
        match oid_arcs content with
        | Some arcs => Ok (ObjectIdentifier arcs, rest)
        | None => Raise PyAsn1Error
        end
      else if tag =? 48 then
        vs <- decode_many (length content) (der_decode_fuel fuel') content ;;
        Ok (Sequence vs, rest)
      else Raise PyAsn1Error
  end.

(** [pyasn1.codec.der.decoder.decode] without a schema, for the three types
    in use: the value and the octets left over. *)
Definition der_decode (s : bytes) : result (asn1 * bytes) :=
  der_decode_fuel (S (length s)) s.

(** The largest content the length octets can announce: 126 octets of
    length. *)
Definition der_small (content : bytes) : Prop :=
  N.of_nat (length content) < 256 ^ 126.

(** Induction on values, with the property at hand for every component of
    a sequence. *)
Section Asn1Induction.

Variable P : asn1 -> Prop.
Hypothesis P_oid : forall arcs, P (ObjectIdentifier arcs).
Hypothesis P_octets : forall octets, P (OctetString octets).
Hypothesis P_sequence :
  forall components, Forall P components -> P (Sequence components).

Fixpoint asn1_nested_ind (v : asn1) : P v :=
  match v with
  | ObjectIdentifier arcs => P_oid arcs
  | OctetString octets => P_octets octets
  | Sequence components =>
      P_sequence components
        ((fix all (l : list asn1) : Forall P l :=
            match l with
            | [] => Forall_nil P
            | w :: t => Forall_cons w (asn1_nested_ind w) (all t)
            end) components)
  end.

End Asn1Induction.

(** Every object identifier inside the value is one the decoder gives
    back. *)
Fixpoint oids_ok (v : asn1) : Prop :=
  match v with
  | ObjectIdentifier arcs => oid_arcs (oid_content arcs) = Some arcs
  | OctetString _ => True
  | Sequence components =>
      (fix all (l : list asn1) : Prop :=
         match l with
         | [] => True
         | w :: t => oids_ok w /\ all t
         end) components
  end.

(** The nesting depth of a value. *)
Fixpoint depth (v : asn1) : nat :=
  match v with
  | Sequence components =>
      S ((fix deepest (l : list asn1) : nat :=
            match l with
            | [] => 0%nat
            | w :: t => Nat.max (depth w) (deepest t)
            end) components)
  | _ => 1%nat
  end.

(** What Python gets out of a decoded value. *)
Inductive pyobj : Type :=
| PyAsn1 (v : asn1)
| PyInt (n : N)
| PyFieldName (k : nat).   (* the str "field-k" *)

(** Without a schema a SEQUENCE whose components all have one type is
    decoded as a [SequenceOf], any other as a [Sequence] with the component
    names [field-0], [field-1], ... *)
Definition is_sequence_of (components : list asn1) : bool :=
  match components with
  | [] => true
  | v :: rest => forallb (fun w => tag_of w =? tag_of v) rest
  end.

(** [v["field-k"]] *)
Definition get_field (v : asn1) (k : nat) : result asn1 :=
  match v with
  | Sequence components =>
      if is_sequence_of components then Raise TypeError
      else match nth_error components k with
           | Some w => Ok w
           | None => Raise KeyError
           end
  | _ => Raise TypeError
  end.

(** [iter(v)]: the components of a [SequenceOf], the field names of a
    [Sequence], the integers of an octet string or object identifier. *)
Definition py_iter (v : asn1) : list pyobj :=
  match v with
  | Sequence components =>
      if is_sequence_of components then map PyAsn1 components
      else map PyFieldName (seq 0 (length components))
  | OctetString octets => map (fun b => PyInt (Byte.to_N b)) octets
  | ObjectIdentifier arcs => map PyInt arcs
  end.

(** [[f(x) for x in l]] with an [f] that may raise. *)
Fixpoint comprehension {A B} (f : A -> result B) (l : list A)
  : result (list B) :=
  match l with
  | [] => Ok []
  | a :: t => b <- f a ;; bs <- comprehension f t ;; Ok (b :: bs)
  end.

(** ** serialize.py *)

(** Modelled from the spec: the attribute [data] and the constructors of
    [Point] and [Scalar] belong to the missing [ge.py] and [sc25519.py].
    [pt_data P] is [bytes(P.data)], the 32-byte encoding, and [Point_new o]
    is [Point(o)] for whatever Python object [o] the importer passes. *)
Class Wire (E : Curve) : Type := {
  pt_data : Point -> bytes;
  sc_data : Scalar -> bytes;
  Point_new : pyobj -> result Point;
  Scalar_new : pyobj -> result Scalar
}.

Definition newline : str := ["010"%char].

Definition _PEM_OPENING : str :=
  list_ascii_of_string "-----BEGIN RING SIGNATURE-----".
Definition _PEM_CLOSING : str :=
  list_ascii_of_string "-----END RING SIGNATURE-----".

(** [uuid.UUID(hex="3b5e61af-c4ec-496e-95e9-4b64bccdc809").bytes] *)
Definition _UUID : list N :=
  [59; 94; 97; 175; 196; 236; 73; 110; 149; 233; 75; 100; 188; 205; 200; 9].

Definition _OBJECT_ID : list N := 2 :: 25 :: _UUID.

(** [f"{_PEM_OPENING}\n{der_base64}\n{_PEM_CLOSING}"] with
    [der_base64 = "\n".join(textwrap.wrap(b64encode(der), 64))] *)
Definition pem_of_der (der : bytes) : str :=
  let der_base64 := join newline (wrap (b64encode der) 64) in
  _PEM_OPENING ++ newline ++ der_base64 ++ newline ++ _PEM_CLOSING.

(** The shape of an exported text: the armor lines around the base64 of
    [der] in lines of 64 characters, the last one possibly shorter. *)
Definition pem_shape (text : str) (der : bytes) : Prop :=
  exists lines,
    text = _PEM_OPENING ++ newline ++ join newline lines ++ newline
             ++ _PEM_CLOSING /\
    concat lines = b64encode der /\
    Forall (fun line => (1 <= length line <= 64)%nat
                        /\ Forall b64_text_char line) lines /\
    (forall i, (S i < length lines)%nat -> length (nth i lines []) = 64%nat).

(** [v != _OBJECT_ID] for a decoded value [v] *)
Definition differs_from_object_id (v : asn1) : bool :=
  match v with
  | ObjectIdentifier arcs =>
      if list_eq_dec N.eq_dec arcs _OBJECT_ID then false else true
  | _ => true
  end.

(** The part the two definitions of [import_pem] share, up to and including
    the check of the object identifier: the decoded ASN.1 value. *)
Definition asn1_of_pem (signature : str) : result asn1 :=
  let signature := strip signature in
  if negb (startswith signature _PEM_OPENING)
     || negb (endswith signature _PEM_CLOSING)
  then Raise ValueError
  else
    let signature :=
      slice_between signature (length _PEM_OPENING) (length _PEM_CLOSING) in
    let signature :=
      filter (fun ch => negb (in_string_whitespace ch)) signature in
    der <- b64decode signature ;;
    '(asn1, remainder) <- der_decode der ;;
    match remainder with
    | _ :: _ => Raise ValueError
    | [] =>
        field_0 <- get_field asn1 0 ;;
        if differs_from_object_id field_0 then Raise ValueError
        else Ok asn1
    end.

Section Serialize.

Context {E : Curve} {W : Wire E}.

(** The value the native decoder builds against [RingSignatureSchema]. *)
Definition RingSignatureSchema (ring_signature : RingSignature) : asn1 :=
  Sequence
    [ObjectIdentifier _OBJECT_ID;
     OctetString (pt_data (rs_key_image ring_signature));
     Sequence (map (fun P => OctetString (pt_data P))
                   (public_keys ring_signature));
     Sequence (map (fun ci => OctetString (sc_data ci)) (c ring_signature));
     Sequence (map (fun ri => OctetString (sc_data ri)) (r ring_signature))].

(** The value the native decoder builds against
    [WithinRingSignatureSchema]. *)
Definition WithinRingSignatureSchema (ring_signature : WithinRingSignature)
  : asn1 :=
  Sequence
    [ObjectIdentifier _OBJECT_ID;
     Sequence (map (fun P => OctetString (pt_data P))
                   (public_points ring_signature));
     Sequence (map (fun P => OctetString (pt_data P))
                   (enc_points ring_signature));
     Sequence (map (fun P => OctetString (pt_data P))
                   (w_public_keys ring_signature));
     Sequence (map (fun ci => OctetString (sc_data ci)) (w_c ring_signature));
     Sequence (map (fun ri => OctetString (sc_data ri)) (w_r ring_signature))].

(** [export_ring_pem] *)
Definition export_ring_pem (ring_signature : RingSignature) : str :=
  pem_of_der (der_encode (RingSignatureSchema ring_signature)).

(** [export_within_ring_pem] *)
Definition export_within_ring_pem (ring_signature : WithinRingSignature)
  : str :=
  pem_of_der (der_encode (WithinRingSignatureSchema ring_signature)).

(** The data extraction of the first [import_pem] (lines 127-133). *)
Definition ring_signature_of_asn1 (asn1 : asn1) : result RingSignature :=
  field_1 <- get_field asn1 1 ;;
  key_image <- Point_new (PyAsn1 field_1) ;;
  field_2 <- get_field asn1 2 ;;
  public_keys <- comprehension Point_new (py_iter field_2) ;;
  field_3 <- get_field asn1 3 ;;
  cs <- comprehension Scalar_new (py_iter field_3) ;;
  field_4 <- get_field asn1 4 ;;
  rs <- comprehension Scalar_new (py_iter field_4) ;;
  Ok {| public_keys := public_keys; rs_key_image := key_image;
        c := cs; r := rs |}.

(** The data extraction of the second [import_pem] (lines 153-160). *)
Definition within_ring_signature_of_asn1 (asn1 : asn1)
  : result WithinRingSignature :=
  field_1 <- get_field asn1 1 ;;
  public_points <- comprehension Point_new (py_iter field_1) ;;
  field_2 <- get_field asn1 2 ;;
  enc_points <- comprehension Point_new (py_iter field_2) ;;
  field_3 <- get_field asn1 3 ;;
  public_keys <- comprehension Point_new (py_iter field_3) ;;
  field_4 <- get_field asn1 4 ;;
  cs <- comprehension Scalar_new (py_iter field_4) ;;
  field_5 <- get_field asn1 5 ;;
  rs <- comprehension Scalar_new (py_iter field_5) ;;
  Ok {| w_public_keys := public_keys; public_points := public_points;
        enc_points := enc_points; w_c := cs; w_r := rs |}.

(** The first [def import_pem] of the module (line 109).  The second
    [def import_pem] (line 135) rebinds the name, so that no caller of
    [import_pem] reaches this one. *)
Definition import_pem_1 (signature : str) : result RingSignature :=
  asn1 <- asn1_of_pem signature ;;
  ring_signature_of_asn1 asn1.

(** [import_pem], the definition in force (line 135). *)
Definition import_pem (signature : str) : result WithinRingSignature :=
  asn1 <- asn1_of_pem signature ;;
  within_ring_signature_of_asn1 asn1.

(** The byte-level round trips of [Point] and [Scalar]. *)
Definition wire_round_trip : Prop :=
  (forall P, Point_new (PyAsn1 (OctetString (pt_data P))) = Ok P) /\
  (forall s, Scalar_new (PyAsn1 (OctetString (sc_data s))) = Ok s).

End Serialize.

Local Close Scope N_scope.

(** ** A small instance of the interface

    The cyclic group of order 5 written additively, acting on itself: scalars
    and points are both the integers modulo 5 and the base point is 1.  It
    serves to run the code on concrete inputs. *)

Module Z5.

Inductive t : Type := z0 | z1 | z2 | z3 | z4.

Definition to_nat (a : t) : nat :=
  match a with z0 => 0 | z1 => 1 | z2 => 2 | z3 => 3 | z4 => 4 end.

Definition of_nat (n : nat) : t :=
  match n mod 5 with
  | 0 => z0 | 1 => z1 | 2 => z2 | 3 => z3 | _ => z4
  end.

Definition add (a b : t) : t := of_nat (to_nat a + to_nat b).
Definition mul (a b : t) : t := of_nat (to_nat a * to_nat b).
Definition neg (a : t) : t := of_nat (5 - to_nat a).
Definition sub (a b : t) : t := add a (neg b).

Definition eqb (a b : t) : bool := Nat.eqb (to_nat a) (to_nat b).

(** The encoding of an element: 32 bytes, little-endian. *)
Definition encode (a : t) : bytes :=
  match a with
  | z0 => Byte.x00 | z1 => Byte.x01 | z2 => Byte.x02
  | z3 => Byte.x03 | z4 => Byte.x04
  end :: repeat Byte.x00 31.

(** The constructor from an octet string; anything else raises. *)
Definition decode (o : pyobj) : result t :=
  match o with
  | PyAsn1 (OctetString (b :: zeros)) =>
      if list_eq_dec Byte.byte_eq_dec zeros (repeat Byte.x00 31) then
        match Byte.to_nat b with
        | 0 => Ok z0 | 1 => Ok z1 | 2 => Ok z2 | 3 => Ok z3 | 4 => Ok z4
        | _ => Raise ValueError
        end
      else Raise ValueError
  | PyAsn1 (OctetString []) => Raise ValueError
  | _ => Raise TypeError
  end.

(** A stand-in for the hash to the curve: [P |-> 3 P + 1]. *)
Definition to_point (a : t) : t := add (mul z3 a) z1.

(** A stand-in for the hash to a scalar: a polynomial in the bytes. *)
Definition to_scalar (b : bytes) : t :=
  of_nat (fold_left (fun acc x => (3 * acc + Byte.to_nat x + 1) mod 5) b 2).

Lemma ring : ring_theory z0 z1 add mul sub neg eq.
Proof.
  constructor; try (intros [] [] []; reflexivity);
    try (intros [] []; reflexivity); intros []; reflexivity.
Qed.

Lemma eqb_eq (a b : t) : eqb a b = true <-> a = b.
Proof. destruct a, b; split; intro H; try reflexivity; discriminate H. Qed.

#[refine] Instance curve : Curve :=
  {| Scalar := t; Point := t;
     sc_zero := z0; sc_one := z1;
     sc_add := add; sc_sub := sub; sc_mul := mul; sc_neg := neg;
     sc_eqb := eqb;
     G := z1;
     pt_add := add; pt_sub := sub; pt_mul := mul; pt_eqb := eqb;
     as_bytes := encode;
     hash_to_point := to_point;
     hash_to_scalar := to_scalar;
     sc_ring := ring;
     sc_eqb_eq := eqb_eq;
     pt_eqb_eq := eqb_eq |}.
Proof.
  - intros [] []; reflexivity.
  - intros [] [] []; reflexivity.
  - intros [] []; reflexivity.
  - intros [] []; reflexivity.
  - intros [] []; reflexivity.
  - intros [] [] []; reflexivity.
  - intros [] [] []; reflexivity.
Defined.

Instance wire : Wire curve :=
  {| pt_data := encode; sc_data := encode;
     Point_new := decode; Scalar_new := decode |}.

(** A random source: the draws cycle through 3, 1, 4, 1, 2. *)
Definition draw (k : nat) : t :=
  match k mod 5 with
  | 0 => z3 | 1 => z1 | 2 => z4 | 3 => z1 | _ => z2
  end.

(** A ring of three keys, those of the private scalars 1, 2 and 3. *)
Definition ring3 : list t := [z1; z2; z3].

(** What [sign] returns on the empty message for the holder of 2 at index 1
    of [ring3], from the first draw on. *)
Definition sig3 : RingSignature :=
  {| public_keys := ring3; rs_key_image := z4;
     c := [z1; z3; z2]; r := [z3; z3; z1] |}.

(** [sig3] with one more key at the end of its ring. *)
Definition sig3_longer : RingSignature :=
  {| public_keys := ring3 ++ [z4]; rs_key_image := z4;
     c := [z1; z3; z2]; r := [z3; z3; z1] |}.

(** The message [b"a"]. *)
Definition msg_a : bytes := [Byte.x61].

(** What [within_ring_sign] returns on [msg_a] for the holder of 2 at index
    1 of [ring3], from the first draw on. *)
Definition wsig3 : WithinRingSignature :=
  {| w_public_keys := ring3;
     public_points := [z3; z1; z4];
     enc_points := [z2; z1; z1];
     w_c := [z1; z0; z2];
     w_r := [z3; z4; z1] |}.

End Z5.


(** ** Facts about the Python list helpers *)

Section ListFacts.

Context {A : Type}.

Lemma py_insert_app (l1 l2 : list A) (v : A) :
  py_insert (length l1) v (l1 ++ l2) = l1 ++ v :: l2.
Proof.
  unfold py_insert.
  rewrite firstn_app, skipn_app, Nat.sub_diag, firstn_all, skipn_all.
  simpl. now rewrite app_nil_r.
Qed.

Lemma py_get_app (l1 l2 : list A) (v : A) :
  py_get (l1 ++ v :: l2) (length l1) = Ok v.
Proof.
  unfold py_get. now rewrite nth_error_app2, Nat.sub_diag by lia.
Qed.

Lemma enumerate_from_app (l1 l2 : list A) (i : nat) :
  combine (seq i (length (l1 ++ l2))) (l1 ++ l2)
  = combine (seq i (length l1)) l1
      ++ combine (seq (i + length l1) (length l2)) l2.
Proof.
  revert i. induction l1 as [|a l1 IH]; intro i; simpl.
  - now rewrite Nat.add_0_r.
  - f_equal. rewrite IH. now rewrite Nat.add_succ_r.
Qed.

Lemma combine_app {B : Type} (l1 l2 : list A) (m1 m2 : list B) :
  length l1 = length m1 ->
  combine (l1 ++ l2) (m1 ++ m2) = combine l1 m1 ++ combine l2 m2.
Proof.
  revert m1. induction l1 as [|a l1 IH]; intros [|b m1] H; simpl in *;
    try discriminate; auto.
  f_equal. apply IH. lia.
Qed.

Lemma combine_app_l {B : Type} (l l' : list A) (m : list B) :
  length l = length m -> combine (l ++ l') m = combine l m.
Proof.
  intro H. rewrite <- (app_nil_r m) at 1.
  rewrite combine_app by assumption.
  now rewrite combine_nil, app_nil_r.
Qed.

End ListFacts.

(** ** Sums of scalars *)

Section ScalarSum.

Context {E : Curve}.
Local Open Scope curve_scope.

Add Ring scalar_ring : sc_ring.

Lemma fold_left_sc_add (l : list Scalar) (a : Scalar) :
  fold_left sc_add l a = a + sc_sum l.
Proof.
  revert a. induction l as [|b l IH]; intro a; simpl.
  - ring.
  - rewrite IH. ring.
Qed.

Lemma sc_sum_app (l1 l2 : list Scalar) :
  sc_sum (l1 ++ l2) = sc_sum l1 + sc_sum l2.
Proof.
  induction l1 as [|a l1 IH]; simpl.
  - ring.
  - rewrite IH. ring.
Qed.

Lemma reduce_sc_add (l : list Scalar) :
  l <> [] -> reduce sc_add l = Ok (sc_sum l).
Proof.
  destruct l as [|a l]; [congruence|]. intros _. simpl.
  now rewrite fold_left_sc_add.
Qed.

Lemma reduce_sc_add_insert (l1 l2 : list Scalar) (v : Scalar) :
  reduce sc_add (l1 ++ v :: l2) = Ok (sc_sum (l1 ++ l2) + v).
Proof.
  rewrite reduce_sc_add by (destruct l1; discriminate).
  f_equal. rewrite !sc_sum_app. simpl. ring.
Qed.

Lemma sc_sub_zero_iff (a b : Scalar) : a - b = sc_zero <-> a = b.
Proof.
  split; intro H.
  - transitivity ((a - b) + b); [ring | rewrite H; ring].
  - subst. ring.
Qed.

End ScalarSum.

(** ** The loop of [sign] *)

Section SignLoop.

Context {E : Curve}.
Variable random : nat -> Scalar.
Local Open Scope curve_scope.

Add Ring scalar_ring' : sc_ring.

Local Abbreviation step := (sign_step random).

Lemma sign_step_other (I : Point) (s i : nat) (st : sign_state) (P : Point) :
  i <> s ->
  step I s st (i, P)
  = {| buffer_ := (buffer_ st
                     ++ as_bytes (random (draws st) *: G
                                  +: random (S (draws st)) *: P))
                    ++ as_bytes (random (draws st) *: hash_to_point P
                                 +: random (S (draws st)) *: I);
       cs := cs st ++ [random (S (draws st))];
       rs := rs st ++ [random (draws st)];
       q_s := q_s st;
       draws := S (S (draws st)) |}.
Proof.
  intro H. unfold sign_step. now destruct (Nat.eqb_spec i s).
Qed.

Lemma sign_step_signer (I : Point) (s : nat) (st : sign_state) (P : Point) :
  step I s st (s, P)
  = {| buffer_ := (buffer_ st ++ as_bytes (random (draws st) *: G))
                    ++ as_bytes (random (draws st) *: hash_to_point P);
       cs := cs st;
       rs := rs st;
       q_s := Some (random (draws st));
       draws := S (draws st) |}.
Proof.
  unfold sign_step. now rewrite Nat.eqb_refl.
Qed.

(** Over a stretch of the ring that does not hold the signer's index, the
    loop of [sign] appends one fresh pair per key, and the bytes it adds to
    the buffer are the ones [ring_verify] adds for these pairs. *)
Lemma sign_loop_others (I : Point) (s : nat) (seg : list Point) :
  forall (i : nat) (st : sign_state),
    (forall j, (i <= j < i + length seg)%nat -> j <> s) ->
    exists qs ws,
      length qs = length seg /\ length ws = length seg /\
      let st' := fold_left (step I s) (combine (seq i (length seg)) seg) st in
      cs st' = cs st ++ ws /\ rs st' = rs st ++ qs /\ q_s st' = q_s st /\
      draws st' = (draws st + 2 * length seg)%nat /\
      buffer_ st'
      = fold_left (verify_step I) (combine (combine seg qs) ws) (buffer_ st).
Proof.
  induction seg as [|P seg IH]; intros i st Hne.
  - exists [], []. simpl. rewrite !app_nil_r. repeat split; lia.
  - cbn [length seq combine fold_left].
    rewrite sign_step_other by (apply Hne; simpl; lia).
    match goal with |- context [fold_left _ _ ?st1] => set (st1' := st1) end.
    destruct (IH (S i) st1') as (qs & ws & Hq & Hw & Hc & Hr & Hqs & Hd & Hb).
    { intros j Hj. apply Hne. simpl. lia. }
    exists (random (draws st) :: qs), (random (S (draws st)) :: ws).
    cbv zeta in *. rewrite Hc, Hr, Hqs, Hd, Hb. subst st1'. simpl.
    rewrite <- !app_assoc. simpl. repeat split; lia.
Qed.

(** The shape of what [sign] returns when the signer's index lies in the
    ring: the other members' pairs [qs1, ws1] before it and [qs2, ws2]
    after it, the signer's draw [q], and the closing pair at the index. *)
Lemma sign_shape (message : bytes) (pre post : list Point) (P : Point)
    (x : Scalar) (k : nat) :
  exists q qs1 ws1 qs2 ws2,
    length qs1 = length pre /\ length ws1 = length pre /\
    length qs2 = length post /\ length ws2 = length post /\
    let I := key_image x in
    let B := fold_left (verify_step I) (combine (combine post qs2) ws2)
               ((fold_left (verify_step I) (combine (combine pre qs1) ws1)
                   message
                 ++ as_bytes (q *: G)) ++ as_bytes (q *: hash_to_point P)) in
    let v := hash_to_scalar B - sc_sum (ws1 ++ ws2) in
    sign random message (pre ++ P :: post) x (length pre) k
    = (match ws1 ++ ws2 with
       | [] => Raise TypeError
       | _ :: _ => Ok (pre ++ P :: post, I, ws1 ++ v :: ws2,
                       qs1 ++ (q - v * x) :: qs2)
       end,
       (k + 2 * (length pre + length post) + 1)%nat).
Proof.
  set (I := key_image x). set (s := length pre).
  set (st0 := {| buffer_ := message; cs := []; rs := []; q_s := None;
                 draws := k |}).
  destruct (sign_loop_others I s pre 0 st0)
    as (qs1 & ws1 & Hq1 & Hw1 & Hc1 & Hr1 & Hs1 & Hd1 & Hb1).
  { intros j Hj. subst s. lia. }
  cbv zeta in *.
  set (st1 := fold_left (step I s) (combine (seq 0 (length pre)) pre) st0)
    in *.
  set (st2 := step I s st1 (s, P)).
  destruct (sign_loop_others I s post (S s) st2)
    as (qs2 & ws2 & Hq2 & Hw2 & Hc2 & Hr2 & Hs2 & Hd2 & Hb2).
  { intros j Hj. lia. }
  cbv zeta in *.
  set (st3 := fold_left (step I s) (combine (seq (S s) (length post)) post)
                st2) in *.
  exists (random (draws st1)), qs1, ws1, qs2, ws2.
  repeat (split; [assumption|]).
  assert (Hfold : fold_left (step I s) (enumerate (pre ++ P :: post)) st0
                  = st3).
  { unfold enumerate. rewrite enumerate_from_app, fold_left_app.
    cbn [length seq combine fold_left]. rewrite Nat.add_0_l.
    reflexivity. }
  assert (Hst2 : st2 = {| buffer_ := (buffer_ st1
                                       ++ as_bytes (random (draws st1) *: G))
                                      ++ as_bytes (random (draws st1)
                                                   *: hash_to_point P);
                          cs := cs st1; rs := rs st1;
                          q_s := Some (random (draws st1));
                          draws := S (draws st1) |})
    by apply sign_step_signer.
  unfold sign. fold I. fold st0. rewrite Hfold.
  rewrite Hc2, Hr2, Hs2, Hd2, Hb2, Hst2. cbn [cs rs q_s draws buffer_].
  rewrite Hc1, Hr1, Hd1, Hb1. cbn [cs rs draws buffer_ st0 app].
  f_equal; [|lia].
  destruct (ws1 ++ ws2) as [|w ws] eqn:Hws; [reflexivity|].
  rewrite <- Hws. rewrite reduce_sc_add by (rewrite Hws; discriminate).
  cbn [bind]. subst s. rewrite <- Hw1.
  rewrite py_insert_app, py_get_app. cbn [bind].
  rewrite Hw1, <- Hq1. rewrite py_insert_app. reflexivity.
Qed.

(** With the index past the end of the ring no round of the loop is the
    signer's, and [sign] raises. *)
Lemma sign_out_of_range (message : bytes) (pks : list Point) (x : Scalar)
    (s k : nat) :
  (length pks <= s)%nat ->
  fst (sign random message pks x s k)
  = match pks with
    | [] => Raise TypeError
    | _ :: _ => Raise UnboundLocalError
    end.
Proof.
  intro Hs.
  set (st0 := {| buffer_ := message; cs := []; rs := []; q_s := None;
                 draws := k |}).
  destruct (sign_loop_others (key_image x) s pks 0 st0)
    as (qs & ws & Hq & Hw & Hc & Hr & Hqs & _ & _).
  { intros j Hj. lia. }
  cbv zeta in *. unfold sign, enumerate. fold st0. cbn [fst].
  rewrite Hc, Hqs. cbn [cs q_s st0 app].
  destruct pks as [|P pks]; destruct ws as [|w ws]; try discriminate Hw;
    reflexivity.
Qed.

(** What a successful [sign] tells about its arguments and its result. *)
Lemma sign_ok_inv (message : bytes) (pks : list Point) (x : Scalar)
    (s k : nat) pks' I0 c0 r0 k' :
  sign random message pks x s k = (Ok (pks', I0, c0, r0), k') ->
  pks' = pks /\ I0 = key_image x /\ (s < length pks)%nat /\
  (2 <= length pks)%nat /\
  length c0 = length pks /\ length r0 = length pks.
Proof.
  intro H.
  destruct (Nat.lt_ge_cases s (length pks)) as [Hs|Hs].
  - destruct (nth_error pks s) as [P|] eqn:HP;
      [|apply nth_error_None in HP; lia].
    destruct (nth_error_split pks s HP) as (pre & post & -> & <-).
    destruct (sign_shape message pre post P x k)
      as (q & qs1 & ws1 & qs2 & ws2 & Hq1 & Hw1 & Hq2 & Hw2 & Hsign).
    cbv zeta in Hsign. rewrite Hsign in H.
    destruct (ws1 ++ ws2) as [|w ws] eqn:Hws; [discriminate H|].
    injection H as <- <- <- <- <-.
    assert (Hn : (1 <= length (ws1 ++ ws2))%nat)
      by (rewrite Hws; simpl; lia).
    rewrite length_app in Hn.
    rewrite !length_app. cbn [length]. repeat split; lia.
  - pose proof (sign_out_of_range message pks x s k Hs) as Ho.
    rewrite H in Ho. cbn [fst] in Ho. destruct pks; discriminate Ho.
Qed.

(** The closing pair makes the signer's two commitments come out as the
    ones that went into the buffer. *)
Lemma closing_G (q v x : Scalar) :
  (q - v * x) *: G +: v *: (x *: G) = q *: G.
Proof.
  rewrite pt_mul_mul_G, <- pt_mul_add_G. f_equal. ring.
Qed.

Lemma closing_H (q v x : Scalar) (P : Point) :
  (q - v * x) *: hash_to_point P +: v *: (x *: hash_to_point P)
  = q *: hash_to_point P.
Proof.
  rewrite pt_mul_mul_H, <- pt_mul_add_H. f_equal. ring.
Qed.

(** [ring_verify] accepts a signature of the shape [sign] produces for the
    holder of the key at the signer's index. *)
Lemma ring_verify_shape (message : bytes) (pre post : list Point)
    (x q : Scalar) (qs1 ws1 qs2 ws2 : list Scalar) :
  length qs1 = length pre -> length ws1 = length pre ->
  let P := public_key x in
  let I := key_image x in
  let B := fold_left (verify_step I) (combine (combine post qs2) ws2)
             ((fold_left (verify_step I) (combine (combine pre qs1) ws1)
                 message
               ++ as_bytes (q *: G)) ++ as_bytes (q *: hash_to_point P)) in
  let v := hash_to_scalar B - sc_sum (ws1 ++ ws2) in
  ring_verify message
    {| public_keys := pre ++ P :: post; rs_key_image := I;
       c := ws1 ++ v :: ws2; r := qs1 ++ (q - v * x) :: qs2 |}
  = Ok true.
Proof.
  intros Hq Hw P I B v. unfold ring_verify.
  cbn [public_keys rs_key_image c r].
  rewrite reduce_sc_add_insert. cbn [bind]. f_equal.
  rewrite !combine_app by (rewrite ?length_combine; lia).
  cbn [combine]. rewrite fold_left_app. cbn [fold_left].
  unfold verify_step at 2.
  change (v *: P) with (v *: (x *: G)).
  change (v *: I) with (v *: (x *: hash_to_point P)).
  rewrite closing_G, closing_H. fold B.
  apply sc_eqb_eq. unfold v. ring.
Qed.

(** ** The loop of [within_ring_sign] and decryption *)

Lemma within_loop (I : Point) (pks : list Point) :
  forall (pubs encs : list Point) (k : nat),
  exists rhos,
    length rhos = length pks /\
    fold_left (within_step random I) pks (pubs, encs, k)
    = (pubs ++ map (fun rho => rho *: G) rhos,
       encs ++ map (fun t => fst t *: snd t +: I) (combine rhos pks),
       (k + length pks)%nat).
Proof.
  induction pks as [|P pks IH]; intros pubs encs k.
  - exists []. simpl. rewrite !app_nil_r, Nat.add_0_r. auto.
  - cbn [fold_left within_step].
    destruct (IH (pubs ++ [random k *: G])
                 (encs ++ [random k *: P +: I]) (S k))
      as (rhos & Hlen & Hfold).
    exists (random k :: rhos). rewrite Hfold. simpl.
    rewrite <- !app_assoc. simpl. split; [lia|]. do 2 f_equal. lia.
Qed.

(** A successful [within_ring_sign] wraps a successful [sign] and adds one
    pair [(rho G, rho P_i + I)] per ring member. *)
Lemma within_ring_sign_ok_inv (message : bytes) (pks : list Point)
    (x : Scalar) (s k : nat) (sig : WithinRingSignature) (k' : nat) :
  within_ring_sign random message pks x s k = (Ok sig, k') ->
  exists c0 r0 k1 rhos,
    sign random message pks x s k = (Ok (pks, key_image x, c0, r0), k1) /\
    length rhos = length pks /\
    sig = {| w_public_keys := pks;
             public_points := map (fun rho => rho *: G) rhos;
             enc_points := map (fun t => fst t *: snd t +: key_image x)
                               (combine rhos pks);
             w_c := c0; w_r := r0 |}.
Proof.
  unfold within_ring_sign.
  destruct (sign random message pks x s k) as [[[[[pks' I0] c0] r0]|e] k1]
    eqn:Hsign; [|discriminate].
  destruct (sign_ok_inv _ _ _ _ _ _ _ _ _ _ Hsign) as (-> & -> & _).
  destruct (within_loop (key_image x) pks [] [] k1) as (rhos & Hlen & Hfold).
  rewrite Hfold. cbn [app]. intro H. injection H as <- <-.
  exists c0, r0, k1, rhos. auto.
Qed.

(** Decryption with the private key of any member recovers the key image
    that was encrypted to that member. *)
Lemma decrypt_member (rho x_j : Scalar) (I : Point) :
  (rho *: (x_j *: G) +: I) -: x_j *: (rho *: G) = I.
Proof.
  rewrite !pt_mul_mul_G.
  replace (x_j * rho) with (rho * x_j) by ring.
  rewrite pt_add_comm. apply pt_add_sub.
Qed.

Lemma py_index_In (v : Point) (l : list Point) :
  In v l ->
  exists j, py_index pt_eqb v l = Ok j /\ nth_error l j = Some v.
Proof.
  induction l as [|a l IH]; intro Hin; [contradiction|].
  cbn [py_index]. destruct (pt_eqb a v) eqn:Heq.
  - apply pt_eqb_eq in Heq. subst. exists 0%nat. auto.
  - destruct Hin as [->|Hin].
    + assert (pt_eqb v v = true) by now apply pt_eqb_eq. congruence.
    + destruct (IH Hin) as (j & -> & Hj). exists (S j). auto.
Qed.

Lemma py_index_not_In (v : Point) (l : list Point) :
  ~ In v l -> py_index pt_eqb v l = Raise ValueError.
Proof.
  induction l as [|a l IH]; intro Hin; [reflexivity|].
  cbn [py_index]. destruct (pt_eqb a v) eqn:Heq.
  - apply pt_eqb_eq in Heq. subst. exfalso. apply Hin. now left.
  - rewrite IH; [reflexivity|]. intro H. apply Hin. now right.
Qed.

(** ** Signing succeeds on rings of two or more keys, and verifies *)

Lemma sign_succeeds (message : bytes) (pks : list Point) (x : Scalar)
    (s k : nat) :
  (s < length pks)%nat -> (2 <= length pks)%nat ->
  exists c0 r0,
    sign random message pks x s k
    = (Ok (pks, key_image x, c0, r0), (k + 2 * (length pks - 1) + 1)%nat).
Proof.
  intros Hs Hn.
  destruct (nth_error pks s) as [P|] eqn:HP;
    [|apply nth_error_None in HP; lia].
  destruct (nth_error_split pks s HP) as (pre & post & -> & <-).
  destruct (sign_shape message pre post P x k)
    as (q & qs1 & ws1 & qs2 & ws2 & Hq1 & Hw1 & Hq2 & Hw2 & Hsign).
  cbv zeta in Hsign. rewrite Hsign.
  rewrite length_app in Hn. cbn [length] in Hn.
  destruct (ws1 ++ ws2) as [|w ws] eqn:Hws.
  { apply (f_equal (@length _)) in Hws. rewrite length_app in Hws.
    simpl in Hws. lia. }
  rewrite <- Hws. eexists _, _. f_equal. rewrite length_app. simpl. lia.
Qed.

(** Whatever [sign] returns for the holder of the key at the signer's index
    is accepted by [ring_verify]. *)
Lemma ring_verify_of_sign (message : bytes) (pks : list Point) (x : Scalar)
    (s k : nat) pks' I0 c0 r0 k' :
  nth_error pks s = Some (public_key x) ->
  sign random message pks x s k = (Ok (pks', I0, c0, r0), k') ->
  ring_verify message
    {| public_keys := pks'; rs_key_image := I0; c := c0; r := r0 |}
  = Ok true.
Proof.
  intros HP Hsign.
  destruct (nth_error_split pks s HP) as (pre & post & -> & <-).
  destruct (sign_shape message pre post (public_key x) x k)
    as (q & qs1 & ws1 & qs2 & ws2 & Hq1 & Hw1 & Hq2 & Hw2 & Hshape).
  cbv zeta in Hshape. rewrite Hshape in Hsign.
  destruct (ws1 ++ ws2) as [|w ws] eqn:Hws; [discriminate Hsign|].
  rewrite <- Hws in Hsign. injection Hsign as <- <- <- <- <-.
  now apply ring_verify_shape.
Qed.

(** Correctness of the ring signature on rings of two or more keys. *)
Lemma ring_sign_verifies (message : bytes) (pks : list Point) (x : Scalar)
    (s k : nat) :
  nth_error pks s = Some (public_key x) -> (2 <= length pks)%nat ->
  exists sig k',
    ring_sign random message pks x s k = (Ok sig, k') /\
    ring_verify message sig = Ok true.
Proof.
  intros HP Hn.
  assert (Hs : (s < length pks)%nat)
    by (apply nth_error_Some; congruence).
  destruct (sign_succeeds message pks x s k Hs Hn) as (c0 & r0 & Hsign).
  unfold ring_sign. rewrite Hsign. cbn [bind].
  eexists _, _. split; [reflexivity|].
  exact (ring_verify_of_sign _ _ _ _ _ _ _ _ _ _ HP Hsign).
Qed.

(** Any member of the ring gets [true] from [within_ring_verify] on what
    [within_ring_sign] returned: decryption gives every member the signer's
    key image. *)
Lemma within_ring_verify_of_sign (message : bytes) (pks : list Point)
    (x : Scalar) (s k : nat) (sig : WithinRingSignature) (k' : nat)
    (x' : Scalar) :
  nth_error pks s = Some (public_key x) ->
  within_ring_sign random message pks x s k = (Ok sig, k') ->
  In (public_key x') pks ->
  within_ring_verify message sig x' = Ok true.
Proof.
  intros HP Hw Hin.
  destruct (within_ring_sign_ok_inv _ _ _ _ _ _ _ Hw)
    as (c0 & r0 & k1 & rhos & Hsign & Hlen & ->).
  destruct (py_index_In _ _ Hin) as (j & Hidx & Hj).
  unfold within_ring_verify.
  cbn [w_public_keys public_points enc_points w_c w_r].
  rewrite Hidx. cbn [bind].
  assert (Hjlt : (j < length rhos)%nat)
    by (rewrite Hlen; apply nth_error_Some; congruence).
  destruct (nth_error rhos j) as [rho|] eqn:Hrho;
    [|apply nth_error_None in Hrho; lia].
  unfold py_get.
  rewrite nth_error_map, Hrho. cbn [option_map bind].
  rewrite nth_error_map.
  assert (Hc : nth_error (combine rhos pks) j = Some (rho, public_key x')).
  { clear -Hrho Hj. revert rhos pks Hrho Hj.
    induction j as [|j IH]; intros [|a rhos] [|P pks] Hrho Hj;
      try discriminate; cbn in *.
    - congruence.
    - now apply IH. }
  rewrite Hc. cbn [option_map bind fst snd].
  unfold public_key at 1. rewrite decrypt_member.
  exact (ring_verify_of_sign _ _ _ _ _ _ _ _ _ _ HP Hsign).
Qed.

(** ** The transcript of [ring_verify], position by position *)

Lemma verify_fold (I : Point) (l : list (Point * Scalar * Scalar)) :
  forall buf,
    fold_left (verify_step I) l buf = buf ++ flat_map (pair_bytes I) l.
Proof.
  induction l as [|[[P_i r_i] c_i] l IH]; intro buf; cbn [fold_left flat_map].
  - now rewrite app_nil_r.
  - rewrite IH. unfold verify_step, pair_bytes. now rewrite <- !app_assoc.
Qed.

Lemma flat_map_seq_S {B : Type} (f : nat -> list B) (n : nat) :
  flat_map f (seq 1 n) = flat_map (fun i => f (S i)) (seq 0 n).
Proof.
  rewrite <- seq_shift, !flat_map_concat_map, map_map. reflexivity.
Qed.

Lemma zip_by_position (I : Point) (pks : list Point) :
  forall (rl cl : list Scalar),
    length pks = length rl -> length pks = length cl ->
    flat_map (pair_bytes I) (combine (combine pks rl) cl)
    = flat_map
        (fun i => pair_bytes I
                    (nth i pks G, nth i rl sc_zero, nth i cl sc_zero))
        (seq 0 (length pks)).
Proof.
  induction pks as [|P pks IH]; intros [|r0 rl] [|c0 cl] Hr Hc;
    try discriminate; [reflexivity|].
  cbn [length combine flat_map seq]. rewrite flat_map_seq_S. cbn [nth].
  f_equal. apply IH; simpl in *; lia.
Qed.

End SignLoop.

(** ** The properties of [one_time.py] *)

Section OneTimeClaims.

Context {E : Curve}.
Local Open Scope curve_scope.

Add Ring scalar_ring'' : sc_ring.

(** C1 (failing case): on a ring of one key, the signer's own, [ring_sign]
    raises [TypeError] for every message, key and state of the random
    source: after the loop the list [c] is empty and
    [functools.reduce(operator.add, c)] has nothing to reduce.  No signature
    is produced, so there is none to verify. *)
Theorem ring_sign_singleton_raises (random : nat -> Scalar)
    (message : bytes) (x : Scalar) (k : nat) :
  nth_error [public_key x] 0 = Some (public_key x) /\
  ring_sign random message [public_key x] x 0 k = (Raise TypeError, S k).
Proof. split; reflexivity. Qed.

(** C3 (failing case): on a ring of one key, the signer's own,
    [within_ring_sign] raises the [TypeError] of [sign]; there is no
    signature for [within_ring_verify] to accept. *)
Theorem within_ring_sign_singleton_raises (random : nat -> Scalar)
    (message : bytes) (x : Scalar) (k : nat) :
  within_ring_sign random message [public_key x] x 0 k
  = (Raise TypeError, S k).
Proof. reflexivity. Qed.

(** C5 (failing case): with [x = 1], ring [[G]] and the empty message,
    [sign] raises [TypeError] whatever the random source gives. *)
Theorem sign_one_G_empty_raises (random : nat -> Scalar) (k : nat) :
  sign random [] [G] sc_one 0 k = (Raise TypeError, S k).
Proof. reflexivity. Qed.

(** C4: the key image in what [sign] returns depends on the private scalar
    only.  Two calls with the same [x], on any messages, rings, indices and
    random sources, return equal key images, and both are
    [PrivateKey(x).key_image() = x * HashToPoint(x G)]. *)
Theorem sign_key_image_depends_on_x_only
    (random1 random2 : nat -> Scalar) (m1 m2 : bytes) (R R' : list Point)
    (x : Scalar) (s s' k1 k2 : nat)
    pks1 I1 c1 r1 k1' pks2 I2 c2 r2 k2' :
  sign random1 m1 R x s k1 = (Ok (pks1, I1, c1, r1), k1') ->
  sign random2 m2 R' x s' k2 = (Ok (pks2, I2, c2, r2), k2') ->
  I1 = I2 /\ I1 = key_image x /\
  key_image x = x *: hash_to_point (x *: G).
Proof.
  intros H1 H2.
  destruct (sign_ok_inv _ _ _ _ _ _ _ _ _ _ _ H1) as (_ & -> & _).
  destruct (sign_ok_inv _ _ _ _ _ _ _ _ _ _ _ H2) as (_ & -> & _).
  repeat split.
Qed.

(** C6: on a signature whose three vectors have the same length [n >= 1],
    [ring_verify] returns [true] exactly when the hash to scalar of the
    message followed by the per-index pairs, in ring order, equals the sum
    of all [c[i]]. *)
Theorem ring_verify_iff_closing_equation (message : bytes)
    (sig : RingSignature) :
  length (public_keys sig) = length (c sig) ->
  length (public_keys sig) = length (r sig) ->
  (1 <= length (public_keys sig))%nat ->
  ring_verify message sig = Ok true
  <-> hash_to_scalar (spec_transcript message sig) = sc_sum (c sig).
Proof.
  intros Hc Hr Hn. unfold ring_verify, spec_transcript.
  rewrite verify_fold, zip_by_position by assumption.
  rewrite reduce_sc_add by (destruct (c sig); simpl in *; [lia|discriminate]).
  cbn [bind]. rewrite <- sc_sub_zero_iff, <- sc_eqb_eq.
  split; [intro H; now injection H | intros ->; reflexivity].
Qed.

(** C8 (as the code has it): [ring_verify] compares no lengths.  Keys and
    [r] entries beyond the length of [c] are ignored: a signature with
    extra trailing entries in [public_keys] and [r] gets the verdict of the
    signature without them. *)
Theorem ring_verify_ignores_extra_entries (message : bytes)
    (pks : list Point) (I : Point) (cl rl : list Scalar)
    (extra_pks : list Point) (extra_r : list Scalar) :
  length pks = length cl -> length rl = length cl ->
  ring_verify message
    {| public_keys := pks ++ extra_pks; rs_key_image := I;
       c := cl; r := rl ++ extra_r |}
  = ring_verify message
      {| public_keys := pks; rs_key_image := I; c := cl; r := rl |}.
Proof.
  intros Hp Hr. unfold ring_verify. cbn [public_keys rs_key_image c r].
  rewrite (combine_app pks extra_pks rl extra_r) by lia.
  rewrite combine_app_l by (rewrite length_combine; lia).
  reflexivity.
Qed.

(** C9: [sign] hands back the ring it was given.  Whenever it returns, the
    first component of the result is the caller's list, and it does return
    for every index inside a ring of two or more keys. *)
Theorem sign_returns_the_ring_unchanged (random : nat -> Scalar)
    (message : bytes) (pks : list Point) (x : Scalar) (s k : nat) :
  (forall pks' I0 c0 r0 k',
      sign random message pks x s k = (Ok (pks', I0, c0, r0), k') ->
      pks' = pks) /\
  ((s < length pks)%nat -> (2 <= length pks)%nat ->
   exists I0 c0 r0 k',
     sign random message pks x s k = (Ok (pks, I0, c0, r0), k')).
Proof.
  split.
  - intros pks' I0 c0 r0 k' H.
    now destruct (sign_ok_inv _ _ _ _ _ _ _ _ _ _ _ H) as (-> & _).
  - intros Hs Hn.
    destruct (sign_succeeds random message pks x s k Hs Hn)
      as (c0 & r0 & H).
    eauto.
Qed.

(** C10: in every signature [within_ring_sign] returns, the pair at any
    index [j] decrypts, under the private key [x_j] of the public key at
    [j], to the signer's key image. *)
Theorem within_ring_every_member_decrypts (random : nat -> Scalar)
    (message : bytes) (pks : list Point) (x : Scalar) (s k : nat)
    (sig : WithinRingSignature) (k' : nat) (j : nat) (x_j : Scalar) :
  within_ring_sign random message pks x s k = (Ok sig, k') ->
  nth_error (w_public_keys sig) j = Some (x_j *: G) ->
  exists pp ep,
    nth_error (public_points sig) j = Some pp /\
    nth_error (enc_points sig) j = Some ep /\
    ep -: x_j *: pp = key_image x.
Proof.
  intros Hw Hj.
  destruct (within_ring_sign_ok_inv _ _ _ _ _ _ _ _ Hw)
    as (c0 & r0 & k1 & rhos & Hsign & Hlen & ->).
  cbn [w_public_keys public_points enc_points] in *.
  assert (Hjlt : (j < length rhos)%nat)
    by (rewrite Hlen; apply nth_error_Some; congruence).
  destruct (nth_error rhos j) as [rho|] eqn:Hrho;
    [|apply nth_error_None in Hrho; lia].
  exists (rho *: G), (rho *: (x_j *: G) +: key_image x).
  rewrite !nth_error_map, Hrho.
  assert (Hc : nth_error (combine rhos pks) j = Some (rho, x_j *: G)).
  { clear -Hrho Hj. revert rhos pks Hrho Hj.
    induction j as [|j IH]; intros [|a rhos] [|P pks] Hrho Hj;
      try discriminate; cbn in *.
    - congruence.
    - now apply IH. }
  rewrite Hc. cbn [option_map fst snd].
  repeat split. apply decrypt_member.
Qed.

(** C2 (as the code has it): every member of the ring, the signer or not,
    gets [true] from [within_ring_verify] on a signature made by
    [within_ring_sign] with the key at the signer's index. *)
Theorem within_ring_verify_accepts_every_member (random : nat -> Scalar)
    (message : bytes) (pks : list Point) (x : Scalar) (s k : nat)
    (sig : WithinRingSignature) (k' : nat) (x' : Scalar) :
  nth_error pks s = Some (public_key x) ->
  within_ring_sign random message pks x s k = (Ok sig, k') ->
  In (public_key x') pks ->
  within_ring_verify message sig x' = Ok true.
Proof.
  intros. eapply within_ring_verify_of_sign; eassumption.
Qed.

End OneTimeClaims.

(** ** The properties on concrete inputs *)

Section OneTimeExamples.

Import Z5.
Local Open Scope curve_scope.

Lemma sign_key_image_depends_on_x_only_witness :
  sign draw [] ring3 z2 1 0 = (Ok (ring3, z4, [z1; z3; z2], [z3; z3; z1]), 5)
  /\ sign draw msg_a [z2; z4] z2 0 3 = (Ok ([z2; z4], z4, [z1; z3], [z4; z2]), 6)
  /\ (z4 = z4 /\ z4 = key_image z2
      /\ key_image z2 = z2 *: hash_to_point (z2 *: G)).
Proof.
  split; [reflexivity|]. split; [reflexivity|].
  apply (sign_key_image_depends_on_x_only (E := curve) draw draw
           [] msg_a ring3 [z2; z4] z2 1 0 0 3
           ring3 z4 [z1; z3; z2] [z3; z3; z1] 5
           [z2; z4] z4 [z1; z3] [z4; z2] 6); reflexivity.
Defined.

Lemma ring_verify_iff_closing_equation_witness :
  ring_verify [] sig3 = Ok true
  <-> hash_to_scalar (spec_transcript [] sig3) = sc_sum (c sig3).
Proof.
  apply (ring_verify_iff_closing_equation (E := curve) [] sig3);
    [reflexivity | reflexivity | vm_compute; lia].
Defined.

Lemma ring_verify_ignores_extra_entries_witness :
  ring_verify [] sig3_longer = ring_verify [] sig3.
Proof.
  apply (ring_verify_ignores_extra_entries (E := curve) [] ring3 z4
           [z1; z3; z2] [z3; z3; z1] [z4] []); reflexivity.
Defined.

(** C8 (the claim fails): the vectors of [sig3_longer] have lengths 4, 3
    and 3, and [ring_verify] returns [true] on it. *)
Lemma ring_verify_accepts_length_mismatch :
  length (public_keys sig3_longer) = 4%nat /\
  length (c sig3_longer) = 3%nat /\ length (r sig3_longer) = 3%nat /\
  ring_verify [] sig3_longer = Ok true.
Proof. repeat split. Qed.

Lemma sign_returns_the_ring_unchanged_witness :
  (forall pks' I0 c0 r0 k',
      sign draw [] ring3 z2 1 0 = (Ok (pks', I0, c0, r0), k') ->
      pks' = ring3) /\
  ((1 < length ring3)%nat -> (2 <= length ring3)%nat ->
   exists I0 c0 r0 k',
     sign draw [] ring3 z2 1 0 = (Ok (ring3, I0, c0, r0), k')).
Proof.
  exact (sign_returns_the_ring_unchanged (E := curve) draw [] ring3 z2 1 0).
Defined.

Lemma within_ring_every_member_decrypts_witness :
  within_ring_sign draw msg_a ring3 z2 1 0 = (Ok wsig3, 8%nat) /\
  nth_error (w_public_keys wsig3) 2 = Some (z3 *: G) /\
  exists pp ep,
    nth_error (public_points wsig3) 2 = Some pp /\
    nth_error (enc_points wsig3) 2 = Some ep /\
    ep -: z3 *: pp = key_image z2.
Proof.
  split; [reflexivity|]. split; [reflexivity|].
  apply (within_ring_every_member_decrypts (E := curve) draw msg_a ring3
           z2 1 0 wsig3 8 2 z3); reflexivity.
Defined.

Lemma within_ring_verify_accepts_every_member_witness :
  nth_error ring3 1 = Some (public_key z2) /\
  within_ring_sign draw msg_a ring3 z2 1 0 = (Ok wsig3, 8%nat) /\
  In (public_key z1) ring3 /\
  within_ring_verify msg_a wsig3 z1 = Ok true.
Proof.
  split; [reflexivity|]. split; [reflexivity|]. split; [now left|].
  apply (within_ring_verify_accepts_every_member (E := curve) draw msg_a
           ring3 z2 1 0 wsig3 8 z1); [reflexivity | reflexivity | now left].
Defined.

(** C2 (the claim fails): the holder of 2 signs at index 1 of [ring3]; the
    holder of 3, another member, recovers the signer's key image from the
    pair at index 2 and gets [true] from [within_ring_verify]. *)
Lemma within_ring_verify_accepts_non_signer :
  nth_error ring3 1 = Some (public_key z2) /\
  within_ring_sign draw msg_a ring3 z2 1 0 = (Ok wsig3, 8%nat) /\
  z3 <> z2 /\ In (public_key z3) ring3 /\
  py_index pt_eqb (public_key z3) (w_public_keys wsig3) = Ok 2%nat /\
  nth 2 (enc_points wsig3) G -: z3 *: nth 2 (public_points wsig3) G
  = key_image z2 /\
  within_ring_verify msg_a wsig3 z3 = Ok true.
Proof.
  repeat split; try reflexivity; [discriminate | simpl; tauto].
Qed.

End OneTimeExamples.

(** ** The libraries under [serialize.py]: what is encoded decodes *)

Local Open Scope N_scope.

(** *** base64 *)

Lemma byte_of_to_N (b : Byte.byte) : byte_of_N (Byte.to_N b) = b.
Proof. unfold byte_of_N. now rewrite Byte.of_to_N. Qed.

Lemma byte_to_N_lt (b : Byte.byte) : Byte.to_N b < 256.
Proof. pose proof (Byte.to_N_bounded b). lia. Qed.

Lemma to_N_byte_of_N (n : N) : n < 256 -> Byte.to_N (byte_of_N n) = n.
Proof.
  intro H. unfold byte_of_N.
  destruct (Byte.of_N n) as [b|] eqn:Hb.
  - now apply Byte.to_of_N.
  - apply Byte.of_N_None_iff in Hb. lia.
Qed.

Lemma b64_value_char (k : N) : k < 64 -> b64_value (b64_char k) = Some k.
Proof.
  intro H.
  assert (Hall : forallb (fun i => match b64_value (b64_char (N.of_nat i)) with
                                   | Some v => v =? N.of_nat i
                                   | None => false
                                   end) (seq 0 64) = true)
    by (vm_compute; reflexivity).
  rewrite forallb_forall in Hall.
  specialize (Hall (N.to_nat k)). rewrite N2Nat.id in Hall.
  destruct (b64_value (b64_char k)) as [v|].
  - f_equal. apply N.eqb_eq. apply Hall. apply in_seq. lia.
  - discriminate Hall. apply in_seq. lia.
Qed.

Local Ltac div_lia := zify; Z.to_euclidean_division_equations; lia.

Lemma b64_recombine4 (n : N) :
  (n / 262144) * 262144 + ((n / 4096) mod 64) * 4096
    + ((n / 64) mod 64) * 64 + n mod 64 = n.
Proof. div_lia. Qed.

Lemma b64_recombine3 (n : N) :
  (n / 4096) * 4096 + ((n / 64) mod 64) * 64 + n mod 64 = n.
Proof. div_lia. Qed.

Lemma b64_recombine2 (n : N) : (n / 64) * 64 + n mod 64 = n.
Proof. div_lia. Qed.

Lemma b64_split3 (a b c : N) :
  a < 256 -> b < 256 -> c < 256 ->
  let n := a * 65536 + b * 256 + c in
  n / 65536 = a /\ (n / 256) mod 256 = b /\ n mod 256 = c
  /\ n / 262144 < 64.
Proof. intros; cbv zeta; repeat split; div_lia. Qed.

Lemma b64_split2 (a b : N) :
  a < 256 -> b < 256 ->
  let n := (a * 256 + b) * 4 in
  n / 1024 = a /\ (n / 4) mod 256 = b /\ n / 4096 < 64.
Proof. intros; cbv zeta; repeat split; div_lia. Qed.

Lemma b64_split1 (a : N) :
  a < 256 -> (a * 16) / 16 = a /\ a * 16 / 64 < 64.
Proof. intros; repeat split; div_lia. Qed.

Lemma b64_mod64_lt (n : N) : n mod 64 < 64.
Proof. apply N.mod_lt. discriminate. Qed.

Lemma b64decode_encode (data : bytes) : b64decode (b64encode data) = Ok data.
Proof.
  assert (Hpad : b64_value "="%char = None) by reflexivity.
  assert (H : forall n (data : bytes), (length data <= n)%nat ->
                b64decode (b64encode data) = Ok data).
  { clear data. induction n as [|n IH]; intros data Hlen.
    - destruct data; [reflexivity | simpl in Hlen; lia].
    - destruct data as [|a [|b [|c rest]]]; [reflexivity| | |].
      + destruct (b64_split1 (Byte.to_N a) (byte_to_N_lt a)) as (Ha & Hlt).
        cbn [b64encode b64decode].
        rewrite !b64_value_char, Hpad by (assumption || apply b64_mod64_lt).
        cbn [Ascii.eqb Bool.eqb andb].
        rewrite b64_recombine2, Ha, byte_of_to_N. reflexivity.
      + destruct (b64_split2 (Byte.to_N a) (Byte.to_N b) (byte_to_N_lt a)
                    (byte_to_N_lt b)) as (Ha & Hb & Hlt).
        cbn [b64encode b64decode].
        rewrite !b64_value_char, Hpad by (assumption || apply b64_mod64_lt).
        cbn [Ascii.eqb Bool.eqb andb].
        rewrite b64_recombine3, Ha, Hb, !byte_of_to_N. reflexivity.
      + destruct (b64_split3 (Byte.to_N a) (Byte.to_N b) (Byte.to_N c)
                    (byte_to_N_lt a) (byte_to_N_lt b) (byte_to_N_lt c))
          as (Ha & Hb & Hc & Hlt).
        cbn [b64encode b64decode].
        rewrite !b64_value_char by (assumption || apply b64_mod64_lt).
        rewrite IH by (simpl in Hlen; lia). cbn [bind].
        rewrite b64_recombine4, Ha, Hb, Hc, !byte_of_to_N. reflexivity. }
  apply (H (length data)). lia.
Qed.

(** *** The armor *)

Lemma b64_char_not_space (k : N) : in_string_whitespace (b64_char k) = false.
Proof.
  assert (Hall : forallb (fun ch => negb (in_string_whitespace ch))
                   ("="%char :: b64_alphabet) = true)
    by (vm_compute; reflexivity).
  rewrite forallb_forall in Hall.
  apply negb_true_iff, Hall. unfold b64_char.
  destruct (nth_in_or_default (N.to_nat k) b64_alphabet "="%char) as [H|H].
  - now right.
  - rewrite H. now left.
Qed.

Lemma b64encode_no_space (data : bytes) :
  Forall (fun ch => in_string_whitespace ch = false) (b64encode data).
Proof.
  assert (H : forall n (data : bytes), (length data <= n)%nat ->
                Forall (fun ch => in_string_whitespace ch = false)
                       (b64encode data)).
  { clear data. induction n as [|n IH]; intros data Hlen.
    - destruct data; [constructor | simpl in Hlen; lia].
    - destruct data as [|a [|b [|c rest]]]; cbn [b64encode];
        repeat (constructor; try apply b64_char_not_space;
                try reflexivity).
      apply IH. simpl in Hlen. lia. }
  apply (H (length data)). lia.
Qed.

Lemma concat_wrap_fuel (fuel width : nat) (text : str) :
  concat (wrap_fuel fuel width text) = text.
Proof.
  revert text. induction fuel as [|fuel IH]; intro text.
  - destruct text; simpl; [reflexivity | now rewrite app_nil_r].
  - destruct text as [|ch text]; [reflexivity|].
    cbn [wrap_fuel concat]. rewrite IH. apply firstn_skipn.
Qed.

Section Filter.

Variable p : ascii -> bool.

Lemma filter_join (sep : str) (pieces : list str) :
  filter p sep = [] ->
  filter p (join sep pieces) = filter p (concat pieces).
Proof.
  intro Hsep. induction pieces as [|x [|y rest] IH]; [reflexivity| |].
  - simpl. now rewrite app_nil_r.
  - change (join sep (x :: y :: rest)) with (x ++ sep ++ join sep (y :: rest)).
    cbn [concat] in *. rewrite !filter_app, Hsep, IH, filter_app.
    reflexivity.
Qed.

Lemma filter_all (l : str) :
  Forall (fun a => p a = true) l -> filter p l = l.
Proof.
  induction 1 as [|a l Ha _ IH]; simpl; [reflexivity|].
  now rewrite Ha, IH.
Qed.

End Filter.

Lemma firstn_length_app {A} (l1 l2 : list A) : firstn (length l1) (l1 ++ l2) = l1.
Proof. induction l1; simpl; congruence. Qed.

Lemma skipn_length_app {A} (l1 l2 : list A) : skipn (length l1) (l1 ++ l2) = l2.
Proof. induction l1; simpl; congruence. Qed.

Lemma lstrip_id (ch : ascii) (s : str) :
  isspace ch = false -> lstrip (ch :: s) = ch :: s.
Proof. intro H. simpl. now rewrite H. Qed.

Lemma strip_id (a z : ascii) (s : str) :
  isspace a = false -> isspace z = false ->
  strip (a :: s ++ [z]) = a :: s ++ [z].
Proof.
  intros Ha Hz. unfold strip. rewrite lstrip_id by assumption.
  change (a :: s ++ [z]) with ((a :: s) ++ [z]).
  rewrite rev_app_distr. cbn [rev app].
  rewrite lstrip_id by assumption.
  change (z :: rev s ++ [a]) with ([z] ++ rev (a :: s)).
  rewrite rev_app_distr, rev_involutive. reflexivity.
Qed.

Lemma str_eqb_refl (s : str) : str_eqb s s = true.
Proof. unfold str_eqb. now destruct (list_eq_dec ascii_dec s s). Qed.

(** What [import_pem] is left with, once armor and line breaks are gone, is
    the base64 text the exporter started from. *)
Lemma unarmor (der : bytes) :
  let signature := strip (pem_of_der der) in
  startswith signature _PEM_OPENING = true /\
  endswith signature _PEM_CLOSING = true /\
  filter (fun ch => negb (in_string_whitespace ch))
    (slice_between signature (length _PEM_OPENING) (length _PEM_CLOSING))
  = b64encode der.
Proof.
  cbv zeta. unfold pem_of_der.
  set (body := join newline (wrap (b64encode der) 64)).
  assert (Hstrip : strip (_PEM_OPENING ++ newline ++ body ++ newline
                            ++ _PEM_CLOSING)
                   = _PEM_OPENING ++ newline ++ body ++ newline
                       ++ _PEM_CLOSING).
  { set (inner := list_ascii_of_string "----BEGIN RING SIGNATURE-----"
                    ++ newline ++ body ++ newline
                    ++ list_ascii_of_string "-----END RING SIGNATURE----").
    transitivity (strip ("-"%char :: inner ++ ["-"%char])).
    - f_equal. unfold inner, _PEM_OPENING, _PEM_CLOSING. cbn [list_ascii_of_string app].
      repeat (rewrite <- ?app_assoc; cbn [app]). reflexivity.
    - rewrite strip_id by reflexivity.
      unfold inner, _PEM_OPENING, _PEM_CLOSING. cbn [list_ascii_of_string app].
      repeat (rewrite <- ?app_assoc; cbn [app]). reflexivity. }
  rewrite Hstrip. clear Hstrip.
  split; [|split].
  - unfold startswith. rewrite firstn_length_app, str_eqb_refl.
    rewrite length_app. apply Nat.leb_le. lia.
  - unfold endswith.
    rewrite !app_assoc. rewrite length_app, Nat.add_sub, skipn_length_app.
    rewrite str_eqb_refl. apply Nat.leb_le. lia.
  - unfold slice_between.
    rewrite !app_assoc. rewrite length_app, Nat.add_sub, firstn_length_app.
    rewrite <- !app_assoc. rewrite skipn_length_app.
    rewrite !filter_app. cbn [filter newline in_string_whitespace].
    change (filter _ newline) with (@nil ascii).
    rewrite app_nil_r. cbn [app]. unfold body.
    rewrite filter_join by reflexivity.
    unfold wrap. rewrite concat_wrap_fuel.
    apply filter_all. eapply Forall_impl; [|apply b64encode_no_space].
    intros ch Hch. cbv beta in *. now rewrite Hch.
Qed.

(** *** Big-endian digits *)

Lemma be_number_app (base : N) (l1 l2 : list N) (acc : N) :
  fold_left (fun a d => a * base + d) (l1 ++ l2) acc
  = fold_left (fun a d => a * base + d) l2
      (fold_left (fun a d => a * base + d) l1 acc).
Proof. apply fold_left_app. Qed.

Lemma digits_fuel_acc (fuel : nat) (base n : N) (acc : list N) :
  digits_fuel fuel base n acc = digits_fuel fuel base n [] ++ acc.
Proof.
  revert n acc. induction fuel as [|fuel IH]; intros n acc; cbn [digits_fuel].
  - reflexivity.
  - destruct (n <? base); [reflexivity|].
    rewrite (IH _ (n mod base :: acc)), (IH _ [n mod base]).
    now rewrite <- app_assoc.
Qed.

Lemma digits_fuel_spec (base : N) (fuel : nat) :
  2 <= base ->
  forall n, n < base ^ N.of_nat (S fuel) ->
    be_number base (digits_fuel fuel base n []) = n /\
    Forall (fun d => d < base) (digits_fuel fuel base n []) /\
    (1 <= length (digits_fuel fuel base n []) <= S fuel)%nat.
Proof.
  intro Hb. induction fuel as [|fuel IH]; intros n Hn; cbn [digits_fuel].
  - rewrite N.pow_1_r in Hn. rewrite N.mod_small by assumption.
    unfold be_number. simpl. repeat split; auto.
  - destruct (N.ltb_spec n base) as [Hlt|Hge].
    + unfold be_number. simpl. repeat split; auto; lia.
    + rewrite digits_fuel_acc.
      assert (Hdiv : n / base < base ^ N.of_nat (S fuel)).
      { apply N.Div0.div_lt_upper_bound.
        rewrite <- N.pow_succ_r'. now rewrite <- Nat2N.inj_succ. }
      destruct (IH _ Hdiv) as (Hnum & Hall & Hlen).
      unfold be_number in *. rewrite be_number_app, Hnum. cbn [fold_left].
      split; [|split].
      * rewrite N.mul_comm. symmetry. apply N.Div0.div_mod.
      * apply Forall_app. split; [assumption|].
        constructor; [|constructor]. apply N.mod_lt. lia.
      * rewrite length_app. simpl. lia.
Qed.

Lemma digits_spec (base n : N) :
  2 <= base ->
  be_number base (digits base n) = n /\
  Forall (fun d => d < base) (digits base n) /\
  (1 <= length (digits base n))%nat.
Proof.
  intro Hb. unfold digits.
  destruct (digits_fuel_spec base (N.to_nat (N.size n)) Hb n)
    as (H1 & H2 & H3).
  - rewrite Nat2N.inj_succ, N2Nat.id.
    apply N.lt_le_trans with (2 ^ N.size n); [apply N.size_gt|].
    apply N.le_trans with (2 ^ N.succ (N.size n)).
    + apply N.pow_le_mono_r; lia.
    + apply N.pow_le_mono_l. lia.
  - repeat split; auto. lia.
Qed.

(** A number below [base ^ m] has at most [m] digits. *)
Lemma digits_fuel_length (base : N) (m : nat) :
  2 <= base ->
  forall fuel n, n < base ^ N.of_nat m ->
    (length (digits_fuel fuel base n []) <= Nat.max 1 m)%nat.
Proof.
  intro Hb. induction m as [|m IH]; intros fuel n Hn.
  - simpl in Hn. assert (n = 0) by lia. subst.
    destruct fuel; cbn [digits_fuel].
    + simpl. lia.
    + destruct (N.ltb_spec 0 base); [simpl; lia | lia].
  - destruct fuel as [|fuel]; cbn [digits_fuel]; [simpl; lia|].
    destruct (N.ltb_spec n base) as [Hlt|Hge]; [simpl; lia|].
    rewrite digits_fuel_acc, length_app. cbn [length].
    assert (Hdiv : n / base < base ^ N.of_nat m).
    { apply N.Div0.div_lt_upper_bound.
      rewrite <- N.pow_succ_r'. now rewrite <- Nat2N.inj_succ. }
    specialize (IH fuel _ Hdiv).
    destruct m as [|m].
    + simpl in Hdiv. assert (n / base = 0) by lia.
      apply N.div_small_iff in H; lia.
    + lia.
Qed.

(** *** Tag and length *)

Lemma map_to_N_byte_of_N (ds : list N) :
  Forall (fun d => d < 256) ds -> map Byte.to_N (map byte_of_N ds) = ds.
Proof.
  induction 1 as [|d ds Hd _ IH]; simpl; [reflexivity|].
  now rewrite to_N_byte_of_N, IH.
Qed.

Lemma der_header_tlv (tag : N) (content rest : bytes) :
  tag < 256 -> der_small content ->
  der_header (tlv tag content ++ rest) = Ok (tag, content, rest).
Proof.
  intros Htag Hsmall. unfold tlv, der_length, der_small in *.
  set (len := N.of_nat (length content)) in *.
  destruct (N.ltb_spec len 128) as [Hlt|Hge].
  - cbn [app der_header].
    rewrite !to_N_byte_of_N by lia.
    destruct (N.ltb_spec len 128); [|lia].
    unfold len. rewrite Nat2N.id, firstn_length_app, skipn_length_app.
    rewrite length_app.
    destruct (Nat.leb_spec (length content) (length content + length rest));
      [reflexivity | lia].
  - destruct (digits_spec 256 len) as (Hnum & Hall & Hlen1); [lia|].
    assert (Hlen2 : (length (digits 256 len) <= 126)%nat).
    { unfold digits.
      apply (digits_fuel_length 256 126); [lia | exact Hsmall]. }
    set (ds := digits 256 len) in *.
    cbn [app der_header].
    rewrite !to_N_byte_of_N by lia.
    destruct (N.ltb_spec (128 + N.of_nat (length ds)) 128); [lia|].
    replace (128 + N.of_nat (length ds) - 128) with (N.of_nat (length ds))
      by lia.
    rewrite Nat2N.id.
    destruct (Nat.eqb_spec (length ds) 0); [lia|].
    rewrite <- app_assoc.
    assert (Hk : length ds = length (map byte_of_N ds))
      by (now rewrite length_map).
    rewrite Hk.
    rewrite firstn_length_app, skipn_length_app.
    rewrite !length_app.
    destruct (Nat.ltb_spec
                (length (map byte_of_N ds) + (length content + length rest))
                (length (map byte_of_N ds))); [lia|].
    cbn [orb]. rewrite map_to_N_byte_of_N, Hnum by assumption.
    unfold len. rewrite Nat2N.id, firstn_length_app, skipn_length_app.
    destruct (Nat.leb_spec (length content) (length content + length rest));
      [reflexivity | lia].
Qed.

(** *** Values *)

Lemma oids_ok_sequence (l : list asn1) :
  oids_ok (Sequence l) <-> Forall oids_ok l.
Proof.
  induction l as [|w t IH]; cbn [oids_ok] in *.
  - split; constructor.
  - split.
    + intros [Hw Ht]. constructor; [assumption | now apply IH].
    + intro H. inversion H; subst. split; [assumption | now apply IH].
Qed.

Lemma depth_sequence (l : list asn1) (f : nat) :
  (depth (Sequence l) <= S f)%nat <-> Forall (fun w => (depth w <= f)%nat) l.
Proof.
  induction l as [|w t IH]; cbn [depth] in *.
  - split; [constructor | lia].
  - split.
    + intro H. constructor; [lia | apply IH; lia].
    + intro H. inversion H as [|? ? Hw Ht]; subst. apply IH in Ht. lia.
Qed.

Lemma der_encode_length (v : asn1) : (2 <= length (der_encode v))%nat.
Proof.
  destruct v; cbn [der_encode]; unfold tlv, der_length;
    match goal with |- context [if ?b then _ else _] => destruct b end;
    simpl; rewrite ?length_app; simpl; lia.
Qed.

Lemma tlv_content_length (tag : N) (content : bytes) :
  (length content <= length (tlv tag content))%nat.
Proof. unfold tlv. simpl. rewrite length_app. lia. Qed.

Lemma der_small_le (a b : bytes) :
  (length a <= length b)%nat -> der_small b -> der_small a.
Proof. unfold der_small. lia. Qed.

Lemma decode_many_concat (decode_one : bytes -> result (asn1 * bytes))
    (l : list asn1) :
  Forall (fun w => forall rest, decode_one (der_encode w ++ rest) = Ok (w, rest))
         l ->
  forall fuel,
    (length (concat (map der_encode l)) <= fuel)%nat ->
    decode_many fuel decode_one (concat (map der_encode l)) = Ok l.
Proof.
  induction 1 as [|w t Hw _ IH]; intros fuel Hfuel.
  - destruct fuel; reflexivity.
  - cbn [map concat] in *. rewrite length_app in Hfuel.
    pose proof (der_encode_length w) as Hlen.
    destruct (der_encode w ++ concat (map der_encode t)) as [|b s] eqn:Hs.
    { apply (f_equal (@length _)) in Hs. rewrite length_app in Hs.
      simpl in Hs. lia. }
    destruct fuel as [|fuel]; [lia|].
    cbn [decode_many]. rewrite <- Hs, Hw. cbn [bind].
    rewrite IH by lia. reflexivity.
Qed.

Lemma concat_member_length (l : list asn1) (w : asn1) :
  In w l ->
  (length (der_encode w) <= length (concat (map der_encode l)))%nat.
Proof.
  induction l as [|a t IH]; intro Hin; [contradiction|].
  cbn [map concat]. rewrite length_app.
  destruct Hin as [->|Hin]; [lia | specialize (IH Hin); lia].
Qed.

(** The decoder gives back what the encoder was given, and the octets that
    follow. *)
Lemma der_decode_fuel_encode (v : asn1) :
  oids_ok v -> der_small (der_encode v) ->
  forall fuel rest,
    (depth v <= fuel)%nat ->
    der_decode_fuel fuel (der_encode v ++ rest) = Ok (v, rest).
Proof.
  induction v as [arcs|octets|components IH] using asn1_nested_ind;
    intros Hoid Hsmall fuel rest Hfuel;
    (destruct fuel as [|fuel]; [cbn [depth] in Hfuel; lia|]);
    cbn [der_encode der_decode_fuel] in *.
  - rewrite der_header_tlv;
      [|lia | eapply der_small_le; [apply tlv_content_length | exact Hsmall]].
    cbn [bind N.eqb Pos.eqb]. cbn [oids_ok] in Hoid. now rewrite Hoid.
  - rewrite der_header_tlv;
      [|lia | eapply der_small_le; [apply tlv_content_length | exact Hsmall]].
    reflexivity.
  - assert (Hcontent : der_small (concat (map der_encode components)))
      by (eapply der_small_le; [apply tlv_content_length | exact Hsmall]).
    rewrite der_header_tlv; [|lia | exact Hcontent].
    cbn [bind N.eqb Pos.eqb].
    rewrite decode_many_concat; [reflexivity| |lia].
    apply oids_ok_sequence in Hoid. apply depth_sequence in Hfuel.
    rewrite Forall_forall in *. intros w Hw rest'.
    apply IH; auto.
    eapply der_small_le; [apply concat_member_length; exact Hw|].
    exact Hcontent.
Qed.

Lemma depth_le_length (v : asn1) : (depth v <= length (der_encode v))%nat.
Proof.
  induction v as [arcs|octets|components IH] using asn1_nested_ind.
  - pose proof (der_encode_length (ObjectIdentifier arcs)). simpl in *. lia.
  - pose proof (der_encode_length (OctetString octets)). simpl in *. lia.
  - cbn [der_encode]. unfold tlv. cbn [length]. rewrite length_app.
    assert (H : (depth (Sequence components)
                 <= S (length (concat (map der_encode components))))%nat).
    { apply depth_sequence. rewrite Forall_forall in *. intros w Hw.
      specialize (IH w Hw).
      pose proof (concat_member_length components w Hw). lia. }
    lia.
Qed.

Theorem der_decode_encode (v : asn1) :
  oids_ok v -> der_small (der_encode v) ->
  der_decode (der_encode v) = Ok (v, []).
Proof.
  intros Hoid Hsmall. unfold der_decode.
  rewrite <- (app_nil_r (der_encode v)) at 2.
  apply der_decode_fuel_encode; auto.
  pose proof (depth_le_length v). lia.
Qed.

(** *** From the exported text back to the value *)

(** The importer's steps up to the check of the object identifier undo the
    exporter's on every value that carries [_OBJECT_ID] in front. *)
Lemma asn1_of_pem_of_der (v : asn1) :
  oids_ok v -> der_small (der_encode v) ->
  get_field v 0 = Ok (ObjectIdentifier _OBJECT_ID) ->
  asn1_of_pem (pem_of_der (der_encode v)) = Ok v.
Proof.
  intros Hoid Hsmall Hfield. unfold asn1_of_pem.
  destruct (unarmor (der_encode v)) as (Hstart & Hend & Hbody).
  cbv zeta in *. rewrite Hstart, Hend, Hbody. cbn [negb orb].
  rewrite b64decode_encode. cbn [bind].
  rewrite der_decode_encode by assumption. cbn [bind].
  rewrite Hfield. cbn [bind differs_from_object_id].
  now destruct (list_eq_dec N.eq_dec _OBJECT_ID _OBJECT_ID).
Qed.

Lemma object_id_ok : oid_arcs (oid_content _OBJECT_ID) = Some _OBJECT_ID.
Proof. vm_compute. reflexivity. Qed.

Lemma oids_ok_octet_strings {A} (f : A -> bytes) (l : list A) :
  oids_ok (Sequence (map (fun a => OctetString (f a)) l)).
Proof.
  apply oids_ok_sequence, Forall_map, Forall_forall. intros; exact I.
Qed.

Lemma is_sequence_of_octet_strings {A} (f : A -> bytes) (l : list A) :
  is_sequence_of (map (fun a => OctetString (f a)) l) = true.
Proof.
  destruct l as [|a l]; [reflexivity|]. cbn [map is_sequence_of].
  apply forallb_forall. intros w Hw. apply in_map_iff in Hw.
  destruct Hw as (b & <- & _). reflexivity.
Qed.

Section SerializeRoundTrip.

Context {E : Curve} {W : Wire E}.

Lemma ring_schema_oids_ok (S : RingSignature) :
  oids_ok (RingSignatureSchema S).
Proof.
  unfold RingSignatureSchema. apply oids_ok_sequence.
  repeat constructor; try apply object_id_ok;
    apply (oids_ok_octet_strings _ _).
Qed.

Lemma within_ring_schema_oids_ok (S : WithinRingSignature) :
  oids_ok (WithinRingSignatureSchema S).
Proof.
  unfold WithinRingSignatureSchema. apply oids_ok_sequence.
  repeat constructor; try apply object_id_ok;
    apply (oids_ok_octet_strings _ _).
Qed.

(** [import_pem] on the text of [export_ring_pem] comes down to the
    extraction of six fields from a value of five. *)
Lemma import_pem_export_ring_pem (S : RingSignature) :
  der_small (der_encode (RingSignatureSchema S)) ->
  import_pem (export_ring_pem S)
  = within_ring_signature_of_asn1 (RingSignatureSchema S).
Proof.
  intro Hsmall. unfold import_pem, export_ring_pem.
  rewrite asn1_of_pem_of_der;
    [reflexivity | apply ring_schema_oids_ok | assumption | reflexivity].
Qed.

Lemma comprehension_octet_strings {A} (f : A -> bytes)
    (new : pyobj -> result A) (l : list A) :
  (forall a, new (PyAsn1 (OctetString (f a))) = Ok a) ->
  comprehension new
    (py_iter (Sequence (map (fun a => OctetString (f a)) l)))
  = Ok l.
Proof.
  intro Hnew. cbn [py_iter]. rewrite is_sequence_of_octet_strings.
  induction l as [|a l IH]; [reflexivity|].
  cbn [map comprehension]. rewrite Hnew. cbn [bind].
  rewrite IH. reflexivity.
Qed.

Lemma within_ring_signature_of_schema (S : WithinRingSignature) :
  wire_round_trip ->
  within_ring_signature_of_asn1 (WithinRingSignatureSchema S) = Ok S.
Proof.
  intros [HP Hs]. unfold within_ring_signature_of_asn1,
    WithinRingSignatureSchema.
  cbn [get_field is_sequence_of forallb tag_of N.eqb Pos.eqb andb nth_error
       bind].
  rewrite !(comprehension_octet_strings pt_data Point_new) by assumption.
  cbn [bind].
  rewrite !(comprehension_octet_strings sc_data Scalar_new) by assumption.
  cbn [bind]. now destruct S.
Qed.

Lemma ring_signature_of_schema (S : RingSignature) :
  wire_round_trip ->
  ring_signature_of_asn1 (RingSignatureSchema S) = Ok S.
Proof.
  intros [HP Hs]. unfold ring_signature_of_asn1, RingSignatureSchema.
  cbn [get_field is_sequence_of forallb tag_of N.eqb Pos.eqb andb nth_error
       bind].
  rewrite HP. cbn [bind].
  rewrite !(comprehension_octet_strings pt_data Point_new) by assumption.
  cbn [bind].
  rewrite !(comprehension_octet_strings sc_data Scalar_new) by assumption.
  cbn [bind]. now destruct S.
Qed.

(** The round trip of within-ring signatures. *)
Lemma import_pem_export_within_ring_pem (S : WithinRingSignature) :
  wire_round_trip ->
  der_small (der_encode (WithinRingSignatureSchema S)) ->
  import_pem (export_within_ring_pem S) = Ok S.
Proof.
  intros Hwire Hsmall. unfold import_pem, export_within_ring_pem.
  rewrite asn1_of_pem_of_der;
    [|apply within_ring_schema_oids_ok | assumption | reflexivity].
  cbn [bind]. now apply within_ring_signature_of_schema.
Qed.

(** The round trip of ring signatures through the first, shadowed
    definition of [import_pem]. *)
Lemma import_pem_1_export_ring_pem (S : RingSignature) :
  wire_round_trip ->
  der_small (der_encode (RingSignatureSchema S)) ->
  import_pem_1 (export_ring_pem S) = Ok S.
Proof.
  intros Hwire Hsmall. unfold import_pem_1, export_ring_pem.
  rewrite asn1_of_pem_of_der;
    [|apply ring_schema_oids_ok | assumption | reflexivity].
  cbn [bind]. now apply ring_signature_of_schema.
Qed.

End SerializeRoundTrip.

Local Close Scope N_scope.

(** ** The properties of [serialize.py] *)

Section SerializeClaims.

Context {E : Curve} {W : Wire E}.

(** The value exported for a ring signature has five components; the
    extraction of [import_pem], which reads six, raises on it whatever the
    constructors of [Point] and [Scalar] do with what they are handed. *)
Lemma within_ring_signature_of_ring_schema_raises (S : RingSignature) :
  exists e,
    within_ring_signature_of_asn1 (RingSignatureSchema S) = Raise e.
Proof.
  unfold within_ring_signature_of_asn1, RingSignatureSchema.
  cbn [get_field is_sequence_of forallb tag_of N.eqb Pos.eqb andb nth_error
       bind].
  repeat match goal with
         | |- context [comprehension ?f ?l] =>
             destruct (comprehension f l) as [?|?]; cbn [bind]; eauto
         end.
Qed.

(** C7 (failing case): for every ring signature [S] (of a size the length
    octets of DER can express), [import_pem] raises on the text that
    [export_ring_pem] made of [S]: the name [import_pem] is bound to the
    importer of within-ring signatures, which reads six fields where the
    export has five.  [S] does not come back. *)
Theorem import_pem_of_export_ring_pem_raises (S : RingSignature) :
  der_small (der_encode (RingSignatureSchema S)) ->
  exists e, import_pem (export_ring_pem S) = Raise e.
Proof.
  intro Hsmall. rewrite import_pem_export_ring_pem by assumption.
  apply within_ring_signature_of_ring_schema_raises.
Qed.

End SerializeClaims.

Section SerializeExamples.

Import Z5.

Lemma import_pem_of_export_ring_pem_raises_witness :
  exists e, import_pem (export_ring_pem sig3) = Raise e.
Proof.
  apply (import_pem_of_export_ring_pem_raises (E := curve) (W := wire) sig3).
  vm_compute. reflexivity.
Defined.

(** On the ring signature [sig3] the exception is the [TypeError] of the
    constructor of [Point] applied to an integer, and the first definition
    of [import_pem], which the second one shadows, gives [sig3] back. *)
Example import_pem_of_export_ring_pem_sig3 :
  import_pem (export_ring_pem sig3) = Raise TypeError /\
  import_pem_1 (export_ring_pem sig3) = Ok sig3.
Proof. split; vm_compute; reflexivity. Qed.

(** The within-ring signature [wsig3] comes back from its PEM text. *)
Example import_pem_of_export_within_ring_pem_wsig3 :
  import_pem (export_within_ring_pem wsig3) = Ok wsig3.
Proof. vm_compute. reflexivity. Qed.

End SerializeExamples.

(** ** Which draw goes where in a signature *)

Section SignDraws.

Context {E : Curve}.
Variable random : nat -> Scalar.
Local Open Scope curve_scope.

(** Over a stretch of the ring without the signer's index, the [j]-th key
    takes the draws [2 j] and [2 j + 1] counted from the start of the
    stretch: the first for [r], the second for [c]. *)
Lemma sign_loop_draws (I : Point) (s : nat) (seg : list Point) :
  forall (i : nat) (st : sign_state),
    (forall j, (i <= j < i + length seg)%nat -> j <> s) ->
    let st' := fold_left (sign_step random I s)
                 (combine (seq i (length seg)) seg) st in
    cs st' = cs st ++ map (fun j => random (draws st + 2 * j + 1)%nat)
                          (seq 0 (length seg)) /\
    rs st' = rs st ++ map (fun j => random (draws st + 2 * j)%nat)
                          (seq 0 (length seg)) /\
    q_s st' = q_s st /\
    draws st' = (draws st + 2 * length seg)%nat.
Proof.
  induction seg as [|P seg IH]; intros i st Hne.
  - simpl. rewrite !app_nil_r. repeat split; lia.
  - cbn [length seq combine fold_left].
    rewrite sign_step_other by (apply Hne; simpl; lia).
    match goal with |- context [fold_left _ _ ?st1] => set (st1' := st1) end.
    destruct (IH (S i) st1') as (Hc & Hr & Hq & Hd).
    { intros j Hj. apply Hne. simpl. lia. }
    cbv zeta. rewrite Hc, Hr, Hq, Hd. subst st1'. cbn [cs rs q_s draws].
    rewrite <- !app_assoc. cbn [app map].
    rewrite <- !seq_shift, !map_map.
    repeat split; try lia.
    + do 2 f_equal; [f_equal; lia|].
      apply map_ext. intro j. f_equal. lia.
    + do 2 f_equal; [f_equal; lia|].
      apply map_ext. intro j. f_equal. lia.
Qed.

(** The locals of [sign] when its loop is over, for a signer's index inside
    the ring. *)
Lemma sign_loop_final (message : bytes) (pre post : list Point) (P : Point)
    (I : Point) (k : nat) :
  let s := length pre in
  let st := fold_left (sign_step random I s) (enumerate (pre ++ P :: post))
              {| buffer_ := message; cs := []; rs := []; q_s := None;
                 draws := k |} in
  cs st = map (fun j => random (k + 2 * j + 1)%nat) (seq 0 s)
          ++ map (fun j => random (k + 2 * s + 2 * j + 2)%nat)
                 (seq 0 (length post)) /\
  rs st = map (fun j => random (k + 2 * j)%nat) (seq 0 s)
          ++ map (fun j => random (k + 2 * s + 2 * j + 1)%nat)
                 (seq 0 (length post)) /\
  q_s st = Some (random (k + 2 * s)%nat) /\
  draws st = (k + 2 * (s + length post) + 1)%nat.
Proof.
  intros s st. subst st. unfold enumerate.
  rewrite enumerate_from_app, fold_left_app.
  cbn [length seq combine fold_left]. rewrite Nat.add_0_l. fold s.
  set (st0 := {| buffer_ := message; cs := []; rs := []; q_s := None;
                 draws := k |}).
  destruct (sign_loop_draws I s pre 0 st0) as (Hc1 & Hr1 & _ & Hd1).
  { intros j Hj. subst s. lia. }
  cbv zeta in *. fold s in Hc1, Hr1, Hd1.
  set (st1 := fold_left (sign_step random I s) (combine (seq 0 s) pre) st0)
    in *.
  rewrite sign_step_signer.
  match goal with |- context [fold_left _ _ ?st2] => set (st2' := st2) end.
  destruct (sign_loop_draws I s post (S s) st2') as (Hc2 & Hr2 & Hq2 & Hd2).
  { intros j Hj. lia. }
  cbv zeta in *. rewrite Hc2, Hr2, Hq2, Hd2. subst st2'.
  cbn [cs rs q_s draws]. rewrite Hc1, Hr1, Hd1. cbn [cs rs draws st0 app].
  repeat split; try lia.
  - f_equal. apply map_ext. intro j. f_equal. lia.
  - f_equal. apply map_ext. intro j. f_equal. lia.
Qed.

Lemma py_insert_at {A} (l1 l2 : list A) (v : A) (s : nat) :
  length l1 = s -> py_insert s v (l1 ++ l2) = l1 ++ v :: l2.
Proof. intros <-. apply py_insert_app. Qed.

Lemma py_get_at {A} (l1 l2 : list A) (v : A) (s : nat) :
  length l1 = s -> py_get (l1 ++ v :: l2) s = Ok v.
Proof. intros <-. apply py_get_app. Qed.

Lemma nth_error_map_seq {A} (f : nat -> A) (n i : nat) :
  (i < n)%nat -> nth_error (map f (seq 0 n)) i = Some (f i).
Proof.
  intro Hi. rewrite nth_error_map, nth_error_seq.
  destruct (Nat.ltb_spec i n); [reflexivity | lia].
Qed.

(** X9: what [sign] returns, entry by entry, in terms of the draws.  From
    draw [k] on it makes [2 n - 1] draws.  Away from the signer's index
    the entries of [c] and [r] are draws, the same for every message and
    private key: [r[i], c[i]] are the draws [k + 2 i, k + 2 i + 1] before
    the index and [k + 2 i - 1, k + 2 i] after it.  At the index,
    [r[s] = q - c[s] x] with [q] the draw [k + 2 s]. *)
Theorem sign_entries (message : bytes) (pks : list Point) (x : Scalar)
    (s k : nat) pks' I0 c0 r0 k' :
  sign random message pks x s k = (Ok (pks', I0, c0, r0), k') ->
  k' = (k + 2 * length pks - 1)%nat /\
  (exists c_s,
      nth_error c0 s = Some c_s /\
      nth_error r0 s = Some (random (k + 2 * s)%nat - c_s * x)) /\
  (forall i, (i < length pks)%nat -> i <> s ->
     nth_error c0 i
     = Some (random (if (i <? s)%nat then k + 2 * i + 1 else k + 2 * i)%nat)
     /\
     nth_error r0 i
     = Some (random (if (i <? s)%nat then k + 2 * i
                     else k + 2 * i - 1)%nat)).
Proof.
  intro H.
  destruct (sign_ok_inv _ _ _ _ _ _ _ _ _ _ _ H) as (_ & _ & Hs & _).
  destruct (nth_error pks s) as [P|] eqn:HP;
    [|apply nth_error_None in HP; lia].
  destruct (nth_error_split pks s HP) as (pre & post & -> & <-).
  destruct (sign_loop_final message pre post P (key_image x) k)
    as (Hc & Hr & Hq & Hd).
  cbv zeta in *. unfold sign in H. rewrite Hc, Hr, Hq, Hd in H.
  set (A1 := map (fun j => random (k + 2 * j + 1)%nat) (seq 0 (length pre)))
    in *.
  set (A2 := map (fun j => random (k + 2 * length pre + 2 * j + 2)%nat)
                 (seq 0 (length post))) in *.
  set (B1 := map (fun j => random (k + 2 * j)%nat) (seq 0 (length pre))) in *.
  set (B2 := map (fun j => random (k + 2 * length pre + 2 * j + 1)%nat)
                 (seq 0 (length post))) in *.
  assert (HA1 : length A1 = length pre)
    by (unfold A1; now rewrite length_map, length_seq).
  assert (HB1 : length B1 = length pre)
    by (unfold B1; now rewrite length_map, length_seq).
  destruct (reduce sc_add (A1 ++ A2)) as [sum|e] eqn:Hsum;
    [|discriminate H].
  cbn [bind] in H.
  rewrite (py_insert_at A1 A2 _ (length pre) HA1) in H.
  rewrite (py_get_at A1 A2 _ (length pre) HA1) in H. cbn [bind] in H.
  rewrite (py_insert_at B1 B2 _ (length pre) HB1) in H.
  injection H as <- <- <- <- <-.
  rewrite length_app. cbn [length]. split; [lia|]. split.
  - eexists. split.
    + rewrite nth_error_app2 by lia. rewrite HA1, Nat.sub_diag. reflexivity.
    + rewrite nth_error_app2 by lia. rewrite HB1, Nat.sub_diag. reflexivity.
  - intros i Hi Hne.
    destruct (Nat.ltb_spec i (length pre)) as [Hlt|Hge].
    + rewrite !nth_error_app1 by lia.
      unfold A1, B1. rewrite !nth_error_map_seq by lia. auto.
    + rewrite !nth_error_app2 by lia. rewrite HA1, HB1.
      destruct (i - length pre)%nat as [|j] eqn:Hj; [lia|].
      cbn [nth_error]. unfold A2, B2.
      rewrite !nth_error_map_seq by lia.
      split; do 2 f_equal; lia.
Qed.

End SignDraws.

(** ** Further properties of [one_time.py] *)

Section OneTimeMore.

Context {E : Curve}.
Variable random : nat -> Scalar.
Local Open Scope curve_scope.

Lemma ring_sign_ok_inv (message : bytes) (pks : list Point) (x : Scalar)
    (s k : nat) (sig : RingSignature) (k' : nat) :
  ring_sign random message pks x s k = (Ok sig, k') ->
  sign random message pks x s k
  = (Ok (public_keys sig, rs_key_image sig, c sig, r sig), k').
Proof.
  unfold ring_sign.
  destruct (sign random message pks x s k) as [[[[[pks' I0] c0] r0]|e] k1];
    cbn [bind]; intro H; [|discriminate H].
  now injection H as <- <-.
Qed.

Lemma map_combine_seq_shift {A B} (F : nat -> A -> B) (l : list A) :
  forall i,
    map (fun jP => F (fst jP) (snd jP)) (combine (seq (S i) (length l)) l)
    = map (fun jP => F (S (fst jP)) (snd jP)) (combine (seq i (length l)) l).
Proof.
  induction l as [|a l IH]; intro i; [reflexivity|].
  cbn [length seq combine map fst snd]. now rewrite IH.
Qed.

Lemma within_loop_draws (I : Point) (pks : list Point) :
  forall (pubs encs : list Point) (k : nat),
    fold_left (within_step random I) pks (pubs, encs, k)
    = (pubs ++ map (fun j => random (k + j)%nat *: G) (seq 0 (length pks)),
       encs ++ map (fun jP => random (k + fst jP)%nat *: snd jP +: I)
                   (combine (seq 0 (length pks)) pks),
       (k + length pks)%nat).
Proof.
  induction pks as [|P pks IH]; intros pubs encs k.
  - simpl. now rewrite !app_nil_r, Nat.add_0_r.
  - cbn [fold_left within_step length seq combine map fst snd].
    rewrite IH, <- !app_assoc. cbn [app].
    rewrite (map_combine_seq_shift
               (fun j Q => random (k + j)%nat *: Q +: I) pks 0).
    rewrite <- seq_shift, map_map.
    rewrite Nat.add_0_r. f_equal; [f_equal|lia].
    + do 2 f_equal. apply map_ext. intro j. do 2 f_equal. lia.
    + do 2 f_equal. apply map_ext. intros [j Q]. cbn [fst snd].
      do 3 f_equal. lia.
Qed.

Lemma nth_error_combine_seq {A} (l : list A) (j : nat) (a : A) :
  nth_error l j = Some a ->
  nth_error (combine (seq 0 (length l)) l) j = Some (j, a).
Proof.
  intro H.
  assert (Hgen : forall (l : list A) i j a, nth_error l j = Some a ->
            nth_error (combine (seq i (length l)) l) j = Some ((i + j)%nat, a)).
  { clear. induction l as [|b l IH]; intros i [|j] a H; try discriminate.
    - cbn in *. injection H as ->. now rewrite Nat.add_0_r.
    - cbn in *. rewrite (IH (S i) j a H). do 2 f_equal. lia. }
  now rewrite (Hgen l 0%nat j a H).
Qed.

(** X1: on a ring of two or more keys, [ring_sign] with the private key of
    the key at the signer's index returns a signature, whatever the message
    and the random draws, and [ring_verify] returns [true] on it. *)
Theorem ring_sign_then_verify (message : bytes) (pks : list Point)
    (x : Scalar) (s k : nat) :
  nth_error pks s = Some (public_key x) -> (2 <= length pks)%nat ->
  exists sig k',
    ring_sign random message pks x s k = (Ok sig, k') /\
    ring_verify message sig = Ok true.
Proof.
  intros HP Hn.
  assert (Hs : (s < length pks)%nat) by (apply nth_error_Some; congruence).
  destruct (sign_succeeds random message pks x s k Hs Hn)
    as (c0 & r0 & Hsign).
  unfold ring_sign. rewrite Hsign. cbn [bind].
  eexists _, _. split; [reflexivity|].
  exact (ring_verify_of_sign _ _ _ _ _ _ _ _ _ _ _ HP Hsign).
Qed.

(** X2: on a ring of two or more keys, [within_ring_sign] with the private
    key of the key at the signer's index returns a signature, and
    [within_ring_verify] with that private key returns [true] on it. *)
Theorem within_ring_sign_then_verify (message : bytes) (pks : list Point)
    (x : Scalar) (s k : nat) :
  nth_error pks s = Some (public_key x) -> (2 <= length pks)%nat ->
  exists sig k',
    within_ring_sign random message pks x s k = (Ok sig, k') /\
    within_ring_verify message sig x = Ok true.
Proof.
  intros HP Hn.
  assert (Hs : (s < length pks)%nat) by (apply nth_error_Some; congruence).
  destruct (sign_succeeds random message pks x s k Hs Hn)
    as (c0 & r0 & Hsign).
  destruct (within_ring_sign random message pks x s k) as [[w|e] k'] eqn:Hw.
  - exists w, k'. split; [reflexivity|].
    apply (within_ring_verify_of_sign random message pks x s k w k' x HP Hw).
    eapply nth_error_In. exact HP.
  - exfalso. unfold within_ring_sign in Hw. rewrite Hsign in Hw.
    destruct (fold_left (within_step random (key_image x)) pks
                ([], [], (k + 2 * (length pks - 1) + 1)%nat))
      as [[pubs encs] k2].
    discriminate Hw.
Qed.

(** X3: when [sign] returns and when it raises.  It raises [TypeError] on
    the empty ring and on a ring of one key signed at index 0,
    [UnboundLocalError] on a non-empty ring with the index past its end,
    and returns a signature in every other case, whether or not the key at
    the index belongs to the private key. *)
Theorem sign_outcome (message : bytes) (pks : list Point) (x : Scalar)
    (s k : nat) :
  (pks = [] -> fst (sign random message pks x s k) = Raise TypeError) /\
  (length pks = 1%nat -> s = 0%nat ->
   fst (sign random message pks x s k) = Raise TypeError) /\
  ((1 <= length pks)%nat -> (length pks <= s)%nat ->
   fst (sign random message pks x s k) = Raise UnboundLocalError) /\
  ((2 <= length pks)%nat -> (s < length pks)%nat ->
   exists c0 r0,
     fst (sign random message pks x s k) = Ok (pks, key_image x, c0, r0)).
Proof.
  split; [|split; [|split]].
  - intros ->. reflexivity.
  - intros Hn ->. destruct pks as [|P [|Q pks]]; try discriminate Hn.
    reflexivity.
  - intros Hn Hs. rewrite sign_out_of_range by assumption.
    destruct pks; [simpl in Hn; lia | reflexivity].
  - intros Hn Hs.
    destruct (sign_succeeds random message pks x s k Hs Hn)
      as (c0 & r0 & Hsign).
    exists c0, r0. now rewrite Hsign.
Qed.

(** X4: whenever [ring_sign] returns, the signature carries the ring it was
    given and the key image of the private key, its vectors [c] and [r]
    have the length of the ring, and the ring has two or more keys with the
    index inside. *)
Theorem ring_sign_vectors_have_ring_size (message : bytes)
    (pks : list Point) (x : Scalar) (s k : nat) (sig : RingSignature)
    (k' : nat) :
  ring_sign random message pks x s k = (Ok sig, k') ->
  public_keys sig = pks /\ rs_key_image sig = key_image x /\
  length (c sig) = length pks /\ length (r sig) = length pks /\
  (2 <= length pks)%nat /\ (s < length pks)%nat.
Proof.
  intro H. apply ring_sign_ok_inv in H.
  destruct (sign_ok_inv _ _ _ _ _ _ _ _ _ _ _ H)
    as (H1 & H2 & H3 & H4 & H5 & H6).
  repeat split; assumption.
Qed.

(** X5: whenever [within_ring_sign] returns, all five vectors of the
    signature have the length of the ring, and [public_keys] is the ring it
    was given. *)
Theorem within_ring_sign_vectors_have_ring_size (message : bytes)
    (pks : list Point) (x : Scalar) (s k : nat)
    (sig : WithinRingSignature) (k' : nat) :
  within_ring_sign random message pks x s k = (Ok sig, k') ->
  w_public_keys sig = pks /\
  length (public_points sig) = length pks /\
  length (enc_points sig) = length pks /\
  length (w_c sig) = length pks /\ length (w_r sig) = length pks.
Proof.
  intro H.
  destruct (within_ring_sign_ok_inv _ _ _ _ _ _ _ _ H)
    as (c0 & r0 & k1 & rhos & Hsign & Hlen & ->).
  destruct (sign_ok_inv _ _ _ _ _ _ _ _ _ _ _ Hsign)
    as (_ & _ & _ & _ & Hc & Hr).
  cbn [w_public_keys public_points enc_points w_c w_r].
  rewrite !length_map, length_combine. repeat split; lia.
Qed.

(** X6: [within_ring_sign] is [ring_sign] followed by one more draw per
    ring member.  From the same state of the random source it returns the
    ring, [c] and [r] that [ring_sign] returns, and at every index [j] the
    pair [(rho G, rho P_j + I)], where [rho] is the [j]-th draw after those
    of [ring_sign] and [I] the key image [ring_sign] puts in the clear. *)
Theorem within_ring_sign_extends_ring_sign (message : bytes)
    (pks : list Point) (x : Scalar) (s k : nat) (sig : RingSignature)
    (k1 : nat) :
  ring_sign random message pks x s k = (Ok sig, k1) ->
  exists w,
    within_ring_sign random message pks x s k
    = (Ok w, (k1 + length pks)%nat) /\
    w_public_keys w = public_keys sig /\
    w_c w = c sig /\ w_r w = r sig /\
    forall j P,
      nth_error pks j = Some P ->
      nth_error (public_points w) j = Some (random (k1 + j)%nat *: G) /\
      nth_error (enc_points w) j
      = Some (random (k1 + j)%nat *: P +: rs_key_image sig).
Proof.
  intro H. apply ring_sign_ok_inv in H.
  destruct (sign_ok_inv _ _ _ _ _ _ _ _ _ _ _ H) as (Hpks & _).
  unfold within_ring_sign. rewrite H, Hpks, within_loop_draws. cbn [app].
  eexists. split; [reflexivity|].
  cbn [w_public_keys w_c w_r public_points enc_points].
  repeat split; auto.
  - rewrite nth_error_map, nth_error_seq.
    assert (j < length pks)%nat by (apply nth_error_Some; congruence).
    destruct (Nat.ltb_spec j (length pks)); [reflexivity | lia].
  - rewrite nth_error_map, (nth_error_combine_seq pks j P) by assumption.
    reflexivity.
Qed.

(** X7: [within_ring_verify] with a private key whose public key is not in
    the ring of the signature raises [ValueError], from [list.index]. *)
Theorem within_ring_verify_outsider_raises (message : bytes)
    (sig : WithinRingSignature) (x' : Scalar) :
  ~ In (public_key x') (w_public_keys sig) ->
  within_ring_verify message sig x' = Raise ValueError.
Proof.
  intro Hout. unfold within_ring_verify.
  now rewrite py_index_not_In.
Qed.

(** X8: [within_ring_verify] on a signature whose [public_points] or
    [enc_points] stop before the first index of the caller's public key
    raises [IndexError]. *)
Theorem within_ring_verify_short_vectors_raise (message : bytes)
    (sig : WithinRingSignature) (x' : Scalar) (j : nat) :
  py_index pt_eqb (public_key x') (w_public_keys sig) = Ok j ->
  (length (public_points sig) <= j)%nat
  \/ (length (enc_points sig) <= j)%nat ->
  within_ring_verify message sig x' = Raise IndexError.
Proof.
  intros Hidx Hshort. unfold within_ring_verify. rewrite Hidx. cbn [bind].
  unfold py_get.
  destruct (nth_error (public_points sig) j) as [pp|] eqn:Hpp;
    [|reflexivity].
  cbn [bind].
  destruct (nth_error (enc_points sig) j) as [ep|] eqn:Hep;
    [|reflexivity].
  exfalso.
  assert (j < length (public_points sig))%nat
    by (apply nth_error_Some; congruence).
  assert (j < length (enc_points sig))%nat
    by (apply nth_error_Some; congruence).
  lia.
Qed.

End OneTimeMore.

(** ** Further facts about the text of a PEM file *)

Lemma lstrip_spaces (pre s : str) :
  Forall (fun ch => isspace ch = true) pre -> lstrip (pre ++ s) = lstrip s.
Proof.
  induction 1 as [|ch pre Hch _ IH]; [reflexivity|].
  cbn [app lstrip]. now rewrite Hch.
Qed.

Lemma lstrip_all_spaces (s : str) :
  Forall (fun ch => isspace ch = true) s -> lstrip s = [].
Proof.
  intro H. rewrite <- (app_nil_r s). now rewrite lstrip_spaces.
Qed.

Lemma lstrip_cases (s : str) :
  (lstrip s = [] /\ Forall (fun ch => isspace ch = true) s) \/
  (exists ch t, lstrip s = ch :: t /\ isspace ch = false).
Proof.
  induction s as [|a s IH]; [left; split; [reflexivity | constructor]|].
  cbn [lstrip]. destruct (isspace a) eqn:Ha.
  - destruct IH as [[H1 H2]|H]; [left | right; exact H].
    split; [assumption | now constructor].
  - right. eauto.
Qed.

(** [strip] does not see whitespace around the text. *)
Lemma strip_spaces_around (pre s post : str) :
  Forall (fun ch => isspace ch = true) pre ->
  Forall (fun ch => isspace ch = true) post ->
  strip (pre ++ s ++ post) = strip s.
Proof.
  intros Hpre Hpost. unfold strip. rewrite lstrip_spaces by assumption.
  destruct (lstrip_cases s) as [[Hs Hall]|(ch & t & Hs & Hch)].
  - rewrite Hs.
    rewrite (lstrip_all_spaces (s ++ post))
      by (apply Forall_app; split; assumption).
    reflexivity.
  - assert (Hsplit : exists pre', s = pre' ++ ch :: t /\
                       Forall (fun c => isspace c = true) pre').
    { clear -Hs Hch. induction s as [|a s IH]; [discriminate Hs|].
      cbn [lstrip] in Hs. destruct (isspace a) eqn:Ha.
      - destruct (IH Hs) as (pre' & -> & Hall).
        exists (a :: pre'). split; [reflexivity | now constructor].
      - injection Hs as -> ->. exists []. split; [reflexivity | constructor]. }
    destruct Hsplit as (pre' & -> & Hpre').
    rewrite <- app_assoc. rewrite lstrip_spaces by assumption.
    cbn [app lstrip]. rewrite Hch.
    change (ch :: t ++ post) with ((ch :: t) ++ post).
    rewrite rev_app_distr, lstrip_spaces, Hs; [reflexivity|].
    apply Forall_rev. assumption.
Qed.

(** A text between the two armor lines is what [import_pem] cuts out. *)
Lemma unarmor_body (body : str) :
  let signature := strip (_PEM_OPENING ++ body ++ _PEM_CLOSING) in
  startswith signature _PEM_OPENING = true /\
  endswith signature _PEM_CLOSING = true /\
  slice_between signature (length _PEM_OPENING) (length _PEM_CLOSING) = body.
Proof.
  cbv zeta.
  assert (Hstrip : strip (_PEM_OPENING ++ body ++ _PEM_CLOSING)
                   = _PEM_OPENING ++ body ++ _PEM_CLOSING).
  { set (inner := list_ascii_of_string "----BEGIN RING SIGNATURE-----"
                    ++ body
                    ++ list_ascii_of_string "-----END RING SIGNATURE----").
    transitivity (strip ("-"%char :: inner ++ ["-"%char])).
    - f_equal. unfold inner, _PEM_OPENING, _PEM_CLOSING.
      cbn [list_ascii_of_string app].
      repeat (rewrite <- ?app_assoc; cbn [app]). reflexivity.
    - rewrite strip_id by reflexivity.
      unfold inner, _PEM_OPENING, _PEM_CLOSING.
      cbn [list_ascii_of_string app].
      repeat (rewrite <- ?app_assoc; cbn [app]). reflexivity. }
  rewrite Hstrip. clear Hstrip.
  split; [|split].
  - unfold startswith. rewrite firstn_length_app, str_eqb_refl.
    rewrite length_app. apply Nat.leb_le. lia.
  - unfold endswith.
    rewrite !app_assoc. rewrite length_app, Nat.add_sub, skipn_length_app.
    rewrite str_eqb_refl. apply Nat.leb_le. lia.
  - unfold slice_between.
    rewrite !app_assoc. rewrite length_app, Nat.add_sub, firstn_length_app.
    now rewrite skipn_length_app.
Qed.

Lemma filter_filter {A} (p : A -> bool) (l : list A) :
  filter p (filter p l) = filter p l.
Proof.
  induction l as [|a l IH]; [reflexivity|].
  cbn [filter]. destruct (p a) eqn:Ha; [|assumption].
  cbn [filter]. now rewrite Ha, IH.
Qed.

(** Between the armor lines only the characters outside
    [string.whitespace] count. *)
Lemma asn1_of_pem_body (body1 body2 : str) :
  filter (fun ch => negb (in_string_whitespace ch)) body1
  = filter (fun ch => negb (in_string_whitespace ch)) body2 ->
  asn1_of_pem (_PEM_OPENING ++ body1 ++ _PEM_CLOSING)
  = asn1_of_pem (_PEM_OPENING ++ body2 ++ _PEM_CLOSING).
Proof.
  intro H. unfold asn1_of_pem.
  destruct (unarmor_body body1) as (Hs1 & He1 & Hb1).
  destruct (unarmor_body body2) as (Hs2 & He2 & Hb2).
  cbv zeta in *. rewrite Hs1, He1, Hb1, Hs2, He2, Hb2, H. reflexivity.
Qed.

(** *** The lines of the exported text *)

Lemma wrap_fuel_lines (width : nat) :
  (1 <= width)%nat ->
  forall fuel text,
    (length text <= fuel)%nat ->
    Forall (fun line => (1 <= length line <= width)%nat)
           (wrap_fuel fuel width text) /\
    (forall i, (S i < length (wrap_fuel fuel width text))%nat ->
               length (nth i (wrap_fuel fuel width text) []) = width).
Proof.
  intro Hw. induction fuel as [|fuel IH]; intros text Hlen.
  - destruct text; [|simpl in Hlen; lia]. simpl.
    split; [constructor | intros i Hi; simpl in Hi; lia].
  - destruct text as [|ch text]; cbn [wrap_fuel].
    + split; [constructor | intros i Hi; simpl in Hi; lia].
    + destruct (IH (skipn width (ch :: text))) as (Hall & Hfull).
      { rewrite length_skipn. cbn [length] in *. lia. }
      split.
      * constructor; [|assumption].
        rewrite length_firstn. cbn [length]. lia.
      * intros [|i] Hi; cbn [nth length] in *.
        -- rewrite length_firstn.
           destruct (skipn width (ch :: text)) as [|a rest] eqn:Hskip;
             [destruct fuel; simpl in Hi; lia|].
           apply (f_equal (@length _)) in Hskip.
           rewrite length_skipn in Hskip. cbn [length] in *. lia.
        -- apply Hfull. lia.
Qed.

Lemma b64_char_text (k : N) : b64_text_char (b64_char k).
Proof.
  assert (Hall : forallb (fun ch => match b64_value ch with
                                    | Some _ => true
                                    | None => Ascii.eqb ch "="%char
                                    end) ("="%char :: b64_alphabet) = true)
    by (vm_compute; reflexivity).
  rewrite forallb_forall in Hall.
  assert (Hin : In (b64_char k) ("="%char :: b64_alphabet)).
  { unfold b64_char.
    destruct (nth_in_or_default (N.to_nat k) b64_alphabet "="%char) as [H|H].
    - now right.
    - rewrite H. now left. }
  specialize (Hall _ Hin). unfold b64_text_char.
  destruct (b64_value (b64_char k)); [left; discriminate|].
  right. now apply Ascii.eqb_eq.
Qed.

Lemma b64encode_text (data : bytes) : Forall b64_text_char (b64encode data).
Proof.
  assert (H : forall n (data : bytes), (length data <= n)%nat ->
                Forall b64_text_char (b64encode data)).
  { clear data. induction n as [|n IH]; intros data Hlen.
    - destruct data; [constructor | simpl in Hlen; lia].
    - destruct data as [|a [|b [|c rest]]]; cbn [b64encode];
        repeat (constructor; try apply b64_char_text;
                try (right; reflexivity)).
      apply IH. simpl in Hlen. lia. }
  apply (H (length data)). lia.
Qed.

Lemma Forall_concat_inv {A} (P : A -> Prop) (ls : list (list A)) :
  Forall P (concat ls) -> Forall (Forall P) ls.
Proof.
  induction ls as [|l ls IH]; intro H; [constructor|].
  cbn [concat] in H. apply Forall_app in H. destruct H.
  constructor; auto.
Qed.

(** The text [pem_of_der] builds: the opening line, the base64 of the DER
    octets cut into lines of 64 characters, the last one possibly
    shorter, and the closing line. *)
Lemma pem_of_der_lines (der : bytes) :
  exists lines,
    pem_of_der der
    = _PEM_OPENING ++ newline ++ join newline lines ++ newline
        ++ _PEM_CLOSING /\
    concat lines = b64encode der /\
    Forall (fun line => (1 <= length line <= 64)%nat
                        /\ Forall b64_text_char line) lines /\
    (forall i, (S i < length lines)%nat -> length (nth i lines []) = 64%nat).
Proof.
  exists (wrap (b64encode der) 64). unfold wrap.
  destruct (wrap_fuel_lines 64 ltac:(lia) (length (b64encode der))
              (b64encode der) (le_n _)) as (Hall & Hfull).
  split; [reflexivity|]. split; [apply concat_wrap_fuel|].
  split; [|exact Hfull].
  pose proof (b64encode_text der) as Htext.
  rewrite <- (concat_wrap_fuel (length (b64encode der)) 64) in Htext.
  apply Forall_concat_inv in Htext.
  rewrite Forall_forall in *. intros line Hin. split; auto.
Qed.

(** *** What the decoders refuse *)



Local Open Scope N_scope.

(** Octets after the DER value are handed back as the remainder. *)
Lemma der_decode_encode_app (v : asn1) (extra : bytes) :
  oids_ok v -> der_small (der_encode v) ->
  der_decode (der_encode v ++ extra) = Ok (v, extra).
Proof.
  intros Hoid Hsmall. unfold der_decode.
  apply der_decode_fuel_encode; auto.
  pose proof (depth_le_length v). rewrite length_app. lia.
Qed.

(** The importer's steps on a text made of [der] by the exporter's last two
    lines. *)
Lemma asn1_of_pem_of_any_der (der : bytes) :
  asn1_of_pem (pem_of_der der)
  = ('(asn1, remainder) <- der_decode der ;;
     match remainder with
     | _ :: _ => Raise ValueError
     | [] =>
         field_0 <- get_field asn1 0 ;;
         if differs_from_object_id field_0 then Raise ValueError
         else Ok asn1
     end).
Proof.
  unfold asn1_of_pem.
  destruct (unarmor der) as (Hstart & Hend & Hbody).
  cbv zeta in *. rewrite Hstart, Hend, Hbody. cbn [negb orb].
  rewrite b64decode_encode. reflexivity.
Qed.

Local Close Scope N_scope.

(** ** Further properties of [serialize.py] *)

Section SerializeMore.

Context {E : Curve} {W : Wire E}.

(** X10: a within-ring signature comes back from its PEM text:
    [import_pem(export_within_ring_pem(S)) == S], given the byte-level
    round trips of [Point] and [Scalar] and a size the length octets of DER
    can express. *)
Theorem import_pem_export_within_ring_pem_round_trip
    (S : WithinRingSignature) :
  wire_round_trip ->
  der_small (der_encode (WithinRingSignatureSchema S)) ->
  import_pem (export_within_ring_pem S) = Ok S.
Proof.
  intros [HP Hs] Hsmall. unfold import_pem, export_within_ring_pem.
  rewrite asn1_of_pem_of_any_der, der_decode_encode;
    [|apply within_ring_schema_oids_ok | assumption].
  cbn [bind]. unfold within_ring_signature_of_asn1,
    WithinRingSignatureSchema.
  cbn [get_field is_sequence_of forallb tag_of N.eqb Pos.eqb andb nth_error
       bind differs_from_object_id].
  destruct (list_eq_dec N.eq_dec _OBJECT_ID _OBJECT_ID); [|congruence].
  cbn [bind get_field is_sequence_of forallb tag_of N.eqb Pos.eqb andb
       nth_error].
  rewrite !(comprehension_octet_strings pt_data Point_new) by assumption.
  cbn [bind].
  rewrite !(comprehension_octet_strings sc_data Scalar_new) by assumption.
  cbn [bind]. now destruct S.
Qed.

(** X11: the first definition of [import_pem] (line 109), had it kept its
    name, gives a ring signature back from the text of
    [export_ring_pem]. *)
Theorem import_pem_1_export_ring_pem_round_trip (S : RingSignature) :
  wire_round_trip ->
  der_small (der_encode (RingSignatureSchema S)) ->
  import_pem_1 (export_ring_pem S) = Ok S.
Proof.
  intros [HP Hs] Hsmall. unfold import_pem_1, export_ring_pem.
  rewrite asn1_of_pem_of_any_der, der_decode_encode;
    [|apply ring_schema_oids_ok | assumption].
  cbn [bind]. unfold ring_signature_of_asn1, RingSignatureSchema.
  cbn [get_field is_sequence_of forallb tag_of N.eqb Pos.eqb andb nth_error
       bind differs_from_object_id].
  destruct (list_eq_dec N.eq_dec _OBJECT_ID _OBJECT_ID); [|congruence].
  cbn [bind get_field is_sequence_of forallb tag_of N.eqb Pos.eqb andb
       nth_error].
  rewrite HP. cbn [bind].
  rewrite !(comprehension_octet_strings pt_data Point_new) by assumption.
  cbn [bind].
  rewrite !(comprehension_octet_strings sc_data Scalar_new) by assumption.
  cbn [bind]. now destruct S.
Qed.

(** X12: whitespace before and after the text makes no difference to
    either importer. *)
Theorem import_pem_ignores_outer_whitespace (pre text post : str) :
  Forall (fun ch => isspace ch = true) pre ->
  Forall (fun ch => isspace ch = true) post ->
  import_pem (pre ++ text ++ post) = import_pem text /\
  import_pem_1 (pre ++ text ++ post) = import_pem_1 text.
Proof.
  intros Hpre Hpost. unfold import_pem, import_pem_1, asn1_of_pem.
  rewrite strip_spaces_around by assumption. split; reflexivity.
Qed.

(** X13: between the armor lines only the characters outside
    [string.whitespace] count: two bodies that agree once blanks and line
    breaks are removed are imported alike, wherever the lines are cut. *)
Theorem import_pem_ignores_line_breaks (body1 body2 : str) :
  filter (fun ch => negb (in_string_whitespace ch)) body1
  = filter (fun ch => negb (in_string_whitespace ch)) body2 ->
  import_pem (_PEM_OPENING ++ body1 ++ _PEM_CLOSING)
  = import_pem (_PEM_OPENING ++ body2 ++ _PEM_CLOSING).
Proof.
  intro H. unfold import_pem. now rewrite (asn1_of_pem_body body1 body2 H).
Qed.

(** X14: both exporters write the opening line, the base64 of the DER
    octets in lines of exactly 64 characters except possibly the last,
    which has between 1 and 64, and the closing line. *)
Theorem export_pem_shape (S : RingSignature) (S' : WithinRingSignature) :
  pem_shape (export_ring_pem S) (der_encode (RingSignatureSchema S)) /\
  pem_shape (export_within_ring_pem S')
            (der_encode (WithinRingSignatureSchema S')).
Proof. split; apply pem_of_der_lines. Qed.

(** X15: [import_pem] raises [ValueError] when octets follow the DER value
    inside the armor. *)
Theorem import_pem_trailing_octets_raise (S : WithinRingSignature)
    (extra : bytes) :
  extra <> [] ->
  der_small (der_encode (WithinRingSignatureSchema S)) ->
  import_pem (pem_of_der (der_encode (WithinRingSignatureSchema S) ++ extra))
  = Raise ValueError.
Proof.
  intros Hextra Hsmall. unfold import_pem.
  rewrite asn1_of_pem_of_any_der, der_decode_encode_app;
    [|apply within_ring_schema_oids_ok | assumption].
  destruct extra; [congruence | reflexivity].
Qed.


End SerializeMore.

(** ** The further properties on concrete inputs *)

Section MoreExamples.

Import Z5.

Lemma Z5_wire_round_trip : wire_round_trip (E := curve) (W := wire).
Proof. split; intros []; vm_compute; reflexivity. Qed.

Lemma ring_sign_then_verify_witness :
  exists sig k',
    ring_sign draw [] ring3 z2 1 0 = (Ok sig, k') /\
    ring_verify [] sig = Ok true.
Proof.
  apply (ring_sign_then_verify (E := curve) draw [] ring3 z2 1 0);
    [reflexivity | simpl; lia].
Defined.

Lemma within_ring_sign_then_verify_witness :
  exists sig k',
    within_ring_sign draw msg_a ring3 z2 1 0 = (Ok sig, k') /\
    within_ring_verify msg_a sig z2 = Ok true.
Proof.
  apply (within_ring_sign_then_verify (E := curve) draw msg_a ring3 z2 1 0);
    [reflexivity | simpl; lia].
Defined.

Lemma sign_outcome_witness :
  fst (sign draw [] [] z2 0 0) = Raise TypeError /\
  fst (sign draw [] [z2] z2 0 0) = Raise TypeError /\
  fst (sign draw [] ring3 z2 5 0) = Raise UnboundLocalError /\
  exists c0 r0, fst (sign draw [] ring3 z2 1 0) = Ok (ring3, key_image z2, c0, r0).
Proof.
  split; [|split; [|split]].
  - apply (proj1 (sign_outcome (E := curve) draw [] [] z2 0 0)).
    reflexivity.
  - apply (proj1 (proj2 (sign_outcome (E := curve) draw [] [z2] z2 0 0)));
      reflexivity.
  - apply (proj1 (proj2 (proj2
             (sign_outcome (E := curve) draw [] ring3 z2 5 0))));
      simpl; lia.
  - apply (proj2 (proj2 (proj2
             (sign_outcome (E := curve) draw [] ring3 z2 1 0))));
      simpl; lia.
Defined.

Lemma ring_sign_vectors_have_ring_size_witness :
  ring_sign draw [] ring3 z2 1 0 = (Ok sig3, 5) /\
  (public_keys sig3 = ring3 /\ rs_key_image sig3 = key_image z2 /\
   length (c sig3) = length ring3 /\ length (r sig3) = length ring3 /\
   2 <= length ring3 /\ 1 < length ring3).
Proof.
  split; [reflexivity|].
  apply (ring_sign_vectors_have_ring_size (E := curve) draw [] ring3 z2 1 0
           sig3 5).
  reflexivity.
Defined.

Lemma within_ring_sign_vectors_have_ring_size_witness :
  within_ring_sign draw msg_a ring3 z2 1 0 = (Ok wsig3, 8) /\
  (w_public_keys wsig3 = ring3 /\
   length (public_points wsig3) = length ring3 /\
   length (enc_points wsig3) = length ring3 /\
   length (w_c wsig3) = length ring3 /\ length (w_r wsig3) = length ring3).
Proof.
  split; [reflexivity|].
  apply (within_ring_sign_vectors_have_ring_size (E := curve) draw msg_a
           ring3 z2 1 0 wsig3 8).
  reflexivity.
Defined.

Lemma within_ring_sign_extends_ring_sign_witness :
  ring_sign draw [] ring3 z2 1 0 = (Ok sig3, 5) /\
  exists w,
    within_ring_sign draw [] ring3 z2 1 0 = (Ok w, 5 + length ring3) /\
    w_public_keys w = public_keys sig3 /\
    w_c w = c sig3 /\ w_r w = r sig3 /\
    forall j P,
      nth_error ring3 j = Some P ->
      nth_error (public_points w) j = Some (pt_mul (draw (5 + j)) G) /\
      nth_error (enc_points w) j
      = Some (pt_add (pt_mul (draw (5 + j)) P) (rs_key_image sig3)).
Proof.
  split; [reflexivity|].
  apply (within_ring_sign_extends_ring_sign (E := curve) draw [] ring3 z2
           1 0 sig3 5).
  reflexivity.
Defined.

Lemma within_ring_verify_outsider_raises_witness :
  ~ In (public_key z4) (w_public_keys wsig3) /\
  within_ring_verify msg_a wsig3 z4 = Raise ValueError.
Proof.
  assert (H : ~ In (public_key z4) (w_public_keys wsig3))
    by (simpl; intros [H|[H|[H|[]]]]; discriminate H).
  split; [exact H|].
  apply (within_ring_verify_outsider_raises (E := curve) msg_a wsig3 z4 H).
Defined.

Lemma within_ring_verify_short_vectors_raise_witness :
  let sig : @WithinRingSignature curve :=
    {| w_public_keys := ring3; public_points := [z3];
       enc_points := [z2; z1; z1];
       w_c := [z1; z0; z2]; w_r := [z3; z4; z1] |} in
  py_index pt_eqb (public_key z3) (w_public_keys sig) = Ok 2 /\
  within_ring_verify msg_a sig z3 = Raise IndexError.
Proof.
  cbv zeta. split; [reflexivity|].
  apply (within_ring_verify_short_vectors_raise (E := curve) msg_a
           (@Build_WithinRingSignature curve ring3 [z3] [z2; z1; z1]
              [z1; z0; z2] [z3; z4; z1]) z3 2);
    [reflexivity | left; simpl; lia].
Defined.

Lemma sign_entries_witness :
  sign draw [] ring3 z2 1 0 = (Ok (ring3, z4, [z1; z3; z2], [z3; z3; z1]), 5)
  /\
  (5 = 0 + 2 * length ring3 - 1 /\
   (exists c_s,
       nth_error [z1; z3; z2] 1 = Some c_s /\
       nth_error [z3; z3; z1] 1
       = Some (sc_sub (draw (0 + 2 * 1)) (sc_mul c_s z2))) /\
   (forall i, i < length ring3 -> i <> 1 ->
      nth_error [z1; z3; z2] i
      = Some (draw (if i <? 1 then 0 + 2 * i + 1 else 0 + 2 * i))
      /\
      nth_error [z3; z3; z1] i
      = Some (draw (if i <? 1 then 0 + 2 * i else 0 + 2 * i - 1)))).
Proof.
  split; [reflexivity|].
  apply (sign_entries (E := curve) draw [] ring3 z2 1 0
           ring3 z4 [z1; z3; z2] [z3; z3; z1] 5).
  reflexivity.
Defined.

Lemma import_pem_export_within_ring_pem_round_trip_witness :
  import_pem (export_within_ring_pem wsig3) = Ok wsig3.
Proof.
  apply (import_pem_export_within_ring_pem_round_trip (E := curve)
           (W := wire) wsig3);
    [exact Z5_wire_round_trip | vm_compute; reflexivity].
Defined.

Lemma import_pem_1_export_ring_pem_round_trip_witness :
  import_pem_1 (export_ring_pem sig3) = Ok sig3.
Proof.
  apply (import_pem_1_export_ring_pem_round_trip (E := curve) (W := wire)
           sig3);
    [exact Z5_wire_round_trip | vm_compute; reflexivity].
Defined.

Lemma import_pem_ignores_outer_whitespace_witness :
  let pre := [" "%char; "010"%char] in
  let post := ["013"%char; "010"%char] in
  import_pem (W := wire) (pre ++ export_within_ring_pem wsig3 ++ post)
  = import_pem (export_within_ring_pem wsig3) /\
  import_pem_1 (W := wire) (pre ++ export_within_ring_pem wsig3 ++ post)
  = import_pem_1 (export_within_ring_pem wsig3).
Proof.
  apply (import_pem_ignores_outer_whitespace (E := curve) (W := wire));
    repeat constructor.
Defined.

Lemma import_pem_ignores_line_breaks_witness :
  let body1 := list_ascii_of_string "QUJD" in
  let body2 := ["010"%char; "Q"%char; "U"%char; " "%char; "J"%char;
                "D"%char; "010"%char] in
  import_pem (W := wire) (_PEM_OPENING ++ body1 ++ _PEM_CLOSING)
  = import_pem (_PEM_OPENING ++ body2 ++ _PEM_CLOSING).
Proof.
  apply (import_pem_ignores_line_breaks (E := curve) (W := wire)).
  reflexivity.
Defined.

Lemma import_pem_trailing_octets_raise_witness :
  import_pem (W := wire)
    (pem_of_der (der_encode (WithinRingSignatureSchema wsig3)
                 ++ [Byte.x00]))
  = Raise ValueError.
Proof.
  apply (import_pem_trailing_octets_raise (E := curve) (W := wire) wsig3
           [Byte.x00]);
    [discriminate | vm_compute; reflexivity].
Defined.


End MoreExamples.
